(** * luvit stream bindings ([luv_stream.c]) and the environment getter
      ([lenv.c]): a shallow embedding and its verification.

    The C functions are written as computations in a state-and-error monad
    over an explicit [World]: the Lua stack, the Lua registry, the streams
    with their [luv_handle_t], the buffer objects, the C heap, the log of
    [free] calls, the native layer's pending error and the trace of what
    the script side is shown (emitted events and invoked callbacks). *)

From stdpp Require Import gmap strings list fin_maps.

Open Scope Z_scope.

(** ** Data *)

(** A C pointer; [NULL] is [0]. *)
Abbreviation Addr := Z.

Definition NULL : Addr := 0.

(** [lauxlib.h]: the two reserved reference ids. *)
Definition LUA_NOREF : Z := -2.
Definition LUA_REFNIL : Z := -1.

(** [uv.h] (libuv 0.x error codes): end of file. *)
Definition UV_EOF : Z := 1.

(** Values that live on the Lua stack and in the registry. *)
Inductive Value : Type :=
| VNil
| VInteger (n : Z)
| VString (s : string)
| VFunction (f : Z)
| VUserdata (h : Addr)
| VBuffer (b : Addr)
| VError (source : string) (code : Z).

Global Instance Value_eq_dec : EqDecision Value.
Proof. solve_decision. Defined.

(** [buffer.h]: a byte buffer with its read-only flag.  [isConst] is the C
    integer of the source, compared with [1] and assigned [1] and [0]. *)
Record buffer : Type := Buffer {
  data : list Z;
  isConst : Z
}.

Definition length_ (b : buffer) : Z := Z.of_nat (length (data b)).

Record uv_buf_t : Type := UvBuf {
  base : Addr;
  len : Z
}.

Record uv_err_t : Type := UvErr {
  code : Z
}.

(** [luv_io_ctx_t]: the registry ids of the callback and of the data. *)
Record luv_io_ctx_t : Type := IoCtx {
  rcb : Z;
  rdata : Z
}.

Inductive uv_req_type : Type :=
| UV_UNKNOWN_REQ
| UV_CONNECT
| UV_WRITE
| UV_SHUTDOWN.

(** The request header fields the bindings use: [req->handle],
    [req->data], and the buffers a write was issued with. *)
Record uv_req_t : Type := UvReq {
  req_type : uv_req_type;
  req_handle : Addr;
  req_data : Addr;
  req_bufs : list uv_buf_t
}.

(** A [uv_stream_t] together with the [luv_handle_t] its [data] field
    points to, and the listeners kept in the userdata's environment. *)
Record stream : Type := Stream {
  refCount : Z;
  ref : Z;
  buffer_ : Addr;
  write_queue_size : Z;
  listeners : gmap string (list Value);
  uv_reading : bool;
  uv_backlog : option Z
}.

Definition set_refCount (n : Z) (x : stream) : stream :=
  Stream n (ref x) (buffer_ x) (write_queue_size x) (listeners x)
         (uv_reading x) (uv_backlog x).
Definition set_listeners (l : gmap string (list Value)) (x : stream) : stream :=
  Stream (refCount x) (ref x) (buffer_ x) (write_queue_size x) l
         (uv_reading x) (uv_backlog x).
Definition set_uv_reading (b : bool) (x : stream) : stream :=
  Stream (refCount x) (ref x) (buffer_ x) (write_queue_size x) (listeners x)
         b (uv_backlog x).
Definition set_uv_backlog (n : option Z) (x : stream) : stream :=
  Stream (refCount x) (ref x) (buffer_ x) (write_queue_size x) (listeners x)
         (uv_reading x) n.

(** What [malloc] handed out.  A freed block stays in the heap as
    [BFreed] so that a second [free] or a later access is detected. *)
Inductive block : Type :=
| BReq (r : uv_req_t)
| BCtx (c : luv_io_ctx_t)
| BRaw (bytes : list Z)
| BFreed.

(** What the script side is shown: an event emitted on a handle, and a
    callable invoked with its arguments.  [view] is the buffer store as
    it is when the event is dispatched and when the callee is entered. *)
Inductive Event : Type :=
| Emit (h : Addr) (name : string) (args : list Value)
       (view : gmap Z buffer)
| Call (fn : Value) (args : list Value) (source : string)
       (view : gmap Z buffer).

(** The native layer as the bindings see it: the return code of a native
    call on a handle, and the message of an error code. *)
Record uv_native : Type := UvNative {
  uv_rc : string → Addr → Z;
  uv_strerror : uv_err_t → string
}.

Record World : Type := MkWorld {
  stack : list Value;
  registry : gmap Z Value;
  streams : gmap Z stream;
  buffers : gmap Z buffer;
  heap : gmap Z block;
  frees : list Addr;
  last_error : uv_err_t;
  native : uv_native;
  environ : list string;
  trace : list Event
}.

(** ** The monad: state, Lua errors ([luaL_error] does not return) and
    faults of the C program (undefined behaviour, failed [assert]). *)

Inductive Fault : Type :=
| NullDeref
| InvalidPointer
| DoubleFree
| StackUnderflow
| AssertFailed.

Inductive Result (A : Type) : Type :=
| Ok (a : A) (w : World)
| Raise (msg : string) (w : World)
| Abort (f : Fault).

Arguments Ok {A} a w.
Arguments Raise {A} msg w.
Arguments Abort {A} f.

Definition M (A : Type) : Type := World → Result A.

Global Instance M_ret : MRet M := λ A a w, Ok a w.

Global Instance M_bind : MBind M := λ A B k m w,
  match m w with
  | Ok a w' => k a w'
  | Raise msg w' => Raise msg w'
  | Abort f => Abort f
  end.

Definition get : M World := λ w, Ok w w.
Definition gets {A} (f : World → A) : M A := λ w, Ok (f w) w.
Definition modify (f : World → World) : M unit := λ w, Ok tt (f w).
Definition abort {A} (f : Fault) : M A := λ _, Abort f.
Definition when (b : bool) (m : M unit) : M unit :=
  if b then m else mret tt.

Fixpoint for_each {A} (l : list A) (body : A → M unit) : M unit :=
  match l with
  | [] => mret tt
  | x :: l' => body x ;; for_each l' body
  end.

(** Field updates. *)
Definition set_stack (s : list Value) (w : World) : World :=
  MkWorld s (registry w) (streams w) (buffers w) (heap w) (frees w)
          (last_error w) (native w) (environ w) (trace w).
Definition set_registry (r : gmap Z Value) (w : World) : World :=
  MkWorld (stack w) r (streams w) (buffers w) (heap w) (frees w)
          (last_error w) (native w) (environ w) (trace w).
Definition set_streams (s : gmap Z stream) (w : World) : World :=
  MkWorld (stack w) (registry w) s (buffers w) (heap w) (frees w)
          (last_error w) (native w) (environ w) (trace w).
Definition set_buffers (b : gmap Z buffer) (w : World) : World :=
  MkWorld (stack w) (registry w) (streams w) b (heap w) (frees w)
          (last_error w) (native w) (environ w) (trace w).
Definition set_heap (h : gmap Z block) (w : World) : World :=
  MkWorld (stack w) (registry w) (streams w) (buffers w) h (frees w)
          (last_error w) (native w) (environ w) (trace w).
Definition set_frees (f : list Addr) (w : World) : World :=
  MkWorld (stack w) (registry w) (streams w) (buffers w) (heap w) f
          (last_error w) (native w) (environ w) (trace w).
Definition set_trace (t : list Event) (w : World) : World :=
  MkWorld (stack w) (registry w) (streams w) (buffers w) (heap w) (frees w)
          (last_error w) (native w) (environ w) t.

(** A key above every key of the map, and at least [1]: the address
    [malloc] returns and the id [luaL_ref] returns. *)
Definition next_key {A} (m : gmap Z A) : Z :=
  1 + map_fold (λ k _ acc, Z.max k acc) 0 m.

(** ** The Lua C API, on the stack and the registry.  The stack is kept
    bottom first: index [1] is its head, index [-1] its last element. *)

Definition lua_gettop : M Z := gets (λ w, Z.of_nat (length (stack w))).

Definition abs_index (top idx : Z) : Z :=
  if 0 <? idx then idx else top + idx + 1.

(** The value at an acceptable index; [None] where the index names no
    slot of the stack. *)
Definition index2value (s : list Value) (idx : Z) : option Value :=
  let i := abs_index (Z.of_nat (length s)) idx in
  if 1 <=? i then s !! Z.to_nat (i - 1) else None.

Definition lua_push (v : Value) : M unit :=
  modify (λ w, set_stack (stack w ++ [v]) w).

Definition lua_pushinteger (n : Z) : M unit := lua_push (VInteger n).
Definition lua_pushnumber (n : Z) : M unit := lua_push (VInteger n).

Definition lua_pushvalue (idx : Z) : M unit :=
  s ← gets stack;
  lua_push (default VNil (index2value s idx)).

Definition lua_pop (n : Z) : M unit :=
  s ← gets stack;
  if Z.of_nat (length s) <? n then abort StackUnderflow
  else modify (set_stack (take (length s - Z.to_nat n) s)).

Definition lua_remove (idx : Z) : M unit :=
  s ← gets stack;
  let i := abs_index (Z.of_nat (length s)) idx in
  if (1 <=? i) && (i <=? Z.of_nat (length s))
  then modify (set_stack (delete (Z.to_nat (i - 1)) s))
  else abort StackUnderflow.

Definition is_function (v : Value) : bool :=
  match v with VFunction _ => true | _ => false end.

Definition lua_isfunction (idx : Z) : M bool :=
  s ← gets stack;
  mret (from_option is_function false (index2value s idx)).

(** [lua_rawgeti(L, LUA_REGISTRYINDEX, n)]: an absent entry reads as nil. *)
Definition lua_rawgeti_registry (n : Z) : M unit :=
  r ← gets registry;
  lua_push (default VNil (r !! n)).

(** [luaL_ref(L, LUA_REGISTRYINDEX)]: pops the top; nil gets the reserved
    id [LUA_REFNIL], any other value a fresh id. *)
Definition luaL_ref_registry : M Z :=
  s ← gets stack;
  match last s with
  | None => abort StackUnderflow
  | Some v =>
      lua_pop 1 ;;
      match v with
      | VNil => mret LUA_REFNIL
      | _ =>
          r ← gets registry;
          let id := next_key r in
          modify (set_registry (<[id := v]> r)) ;;
          mret id
      end
  end.

(** [luaL_unref(L, LUA_REGISTRYINDEX, ref)]: nothing for the reserved
    (negative) ids. *)
Definition luaL_unref_registry (n : Z) : M unit :=
  if 0 <=? n then modify (λ w, set_registry (delete n (registry w)) w)
  else mret tt.

(** [luaL_error]: raises to the caller; the statements after it in the C
    function are not run. *)
Definition luaL_error {A} (msg : string) : M A := λ w, Raise msg w.

Definition luaL_checktype_function (idx : Z) : M unit :=
  s ← gets stack;
  match index2value s idx with
  | Some (VFunction _) => mret tt
  | _ => luaL_error "bad argument (function expected)"
  end.

Definition luaL_optint (idx d : Z) : M Z :=
  s ← gets stack;
  match index2value s idx with
  | None | Some VNil => mret d
  | Some (VInteger n) => mret n
  | Some _ => luaL_error "bad argument (number expected)"
  end.

Definition luaL_checkstring (idx : Z) : M string :=
  s ← gets stack;
  match index2value s idx with
  | Some (VString x) => mret x
  | _ => luaL_error "bad argument (string expected)"
  end.

(** ** libc: [malloc] and [free]. *)

Definition malloc (init : block) : M Addr :=
  h ← gets heap;
  let a := next_key h in
  modify (set_heap (<[a := init]> h)) ;;
  mret a.

Definition free (a : Addr) : M unit :=
  if a =? NULL then mret tt
  else
    h ← gets heap;
    match h !! a with
    | None => abort InvalidPointer
    | Some BFreed => abort DoubleFree
    | Some _ =>
        modify (λ w, set_frees (frees w ++ [a]) (set_heap (<[a := BFreed]> h) w))
    end.

(** Reading and writing through typed pointers. *)

Definition load_req (req : Addr) : M uv_req_t :=
  h ← gets heap;
  match h !! req with
  | Some (BReq r) => mret r
  | _ => abort InvalidPointer
  end.

Definition store_req (req : Addr) (r : uv_req_t) : M unit :=
  load_req req ;;
  modify (λ w, set_heap (<[req := BReq r]> (heap w)) w).

Definition load_ctx (cbs : Addr) : M luv_io_ctx_t :=
  h ← gets heap;
  match h !! cbs with
  | Some (BCtx c) => mret c
  | _ => abort InvalidPointer
  end.

Definition store_ctx (cbs : Addr) (c : luv_io_ctx_t) : M unit :=
  load_ctx cbs ;;
  modify (λ w, set_heap (<[cbs := BCtx c]> (heap w)) w).

Definition load_stream (handle : Addr) : M stream :=
  s ← gets streams;
  match s !! handle with
  | Some x => mret x
  | None => abort InvalidPointer
  end.

Definition store_stream (handle : Addr) (x : stream) : M unit :=
  load_stream handle ;;
  modify (λ w, set_streams (<[handle := x]> (streams w)) w).

Definition load_buffer (b : Addr) : M buffer :=
  s ← gets buffers;
  match s !! b with
  | Some x => mret x
  | None => abort InvalidPointer
  end.

Definition store_buffer (b : Addr) (x : buffer) : M unit :=
  load_buffer b ;;
  modify (λ w, set_buffers (<[b := x]> (buffers w)) w).

(** [lhandle->buffer->isConst = v]. *)
Definition set_isConst (b : Addr) (v : Z) : M unit :=
  x ← load_buffer b;
  store_buffer b (Buffer (data x) v).

(** ** Helpers of the repository that [luv_stream.c] calls and that are
    declared in headers only ([luv_handle.h], [utils.h], [buffer.h]). *)

(** Modelled from the spec: [luv_handle_get_lua] is missing (the Handle
    lets "native completion callbacks recover the owning script context
    from the opaque native resource's attached user pointer"); the callers
    say it loads "the lua state and the userdata", so it leaves the
    handle's userdata on the stack. *)
Definition luv_handle_get_lua (lhandle : Addr) : M unit :=
  load_stream lhandle ;;
  lua_push (VUserdata lhandle).

(** Modelled from the spec: [luv_handle_ref] is missing; "[ref(handle)]
    increments the keep-alive count". *)
Definition luv_handle_ref (lhandle : Addr) (index : Z) : M unit :=
  x ← load_stream lhandle;
  store_stream lhandle (set_refCount (refCount x + 1) x).

(** Modelled from the spec: [luv_handle_unref] is missing; it releases one
    keep-alive reference, and "[unref] below zero is a logic error". *)
Definition luv_handle_unref (lhandle : Addr) : M unit :=
  x ← load_stream lhandle;
  if refCount x - 1 <? 0 then abort AssertFailed
  else
    store_stream lhandle (set_refCount (refCount x - 1) x).

(** Modelled from the spec: [luv_checkudata] is missing; a wrong argument
    type is a precondition "checked synchronously" that fails immediately. *)
Definition luv_checkudata (idx : Z) (type : string) : M Addr :=
  s ← gets stack;
  match index2value s idx with
  | Some (VUserdata h) => mret h
  | _ => luaL_error ("bad argument (" +:+ type +:+ " expected)")
  end.

(** Modelled from the spec: [luv_push_async_error] is missing; it is the
    "error-value constructor taking an operation name and a native
    status/message", and it leaves the value on the stack. *)
Definition luv_push_async_error (err : uv_err_t) (source : string) : M unit :=
  lua_push (VError source (code err)).

(** [uv_last_error(luv_get_loop(L))]. *)
Definition uv_last_error : M uv_err_t := gets last_error.

(** Modelled from the spec: [luv_acall] is missing; it is the
    "call-invocation primitive that invokes a script-level callable with N
    arguments already placed".  The callable and its arguments leave the
    stack; the call is entered in the trace with the buffers as the callee
    finds them. *)
Definition luv_acall (nargs nresults : Z) (source : string) : M unit :=
  s ← gets stack;
  let top := Z.of_nat (length s) in
  if (nargs <? 0) || (top <? nargs + 1) then abort StackUnderflow
  else
    let k := Z.to_nat (top - nargs - 1) in
    let fn := default VNil (s !! k) in
    let args := drop (S k) s in
    modify (λ w, set_trace (trace w ++ [Call fn args source (buffers w)])
                   (set_stack (take k s) w)).

(** Modelled from the spec: [luv_emit_event] is missing;
    "[emit(handle, event_name, arg_count)] looks up listeners registered
    for [event_name] on [handle] and invokes each with [arg_count] values
    already placed for it by the caller", in registration order, and
    drops the event when none is registered.  The handle is the userdata
    right below the arguments; both leave the stack. *)
Definition luv_emit_event (name : string) (nargs : Z) : M unit :=
  s ← gets stack;
  let top := Z.of_nat (length s) in
  if (nargs <? 0) || (top <? nargs + 1) then abort StackUnderflow
  else
    let k := Z.to_nat (top - nargs - 1) in
    match s !! k with
    | Some (VUserdata h) =>
        let args := drop (S k) s in
        x ← load_stream h;
        modify (λ w, set_trace (trace w ++ [Emit h name args (buffers w)])
                       (set_stack (take k s) w)) ;;
        for_each (default [] (listeners x !! name)) (λ fn,
          lua_push fn ;;
          for_each args lua_push ;;
          luv_acall nargs 0 name)
    | _ => abort InvalidPointer
    end.

(** Modelled from the spec: [luv_register_event] is missing; the value at
    [callback_index] becomes a listener for [name] on the userdata at
    [userdata_index], after those registered before it. *)
Definition luv_register_event (userdata_index : Z) (name : string)
    (callback_index : Z) : M unit :=
  s ← gets stack;
  match index2value s userdata_index with
  | Some (VUserdata h) =>
      x ← load_stream h;
      let cb := default VNil (index2value s callback_index) in
      store_stream h
        (set_listeners
           (<[name := default [] (listeners x !! name) ++ [cb]]> (listeners x))
           x)
  | _ => abort InvalidPointer
  end.

(** Modelled from the spec: the [luv_io_ctx_*] functions are missing; the
    Callback Context "holds at most one registered callback reference and
    at most one registered auxiliary data reference, both keyed into the
    scripting runtime's global reference table", with
    [register(value) -> ref_id], [lookup(ref_id) -> value] and
    [release(ref_id)]. *)
Definition luv_io_ctx_init (cbs : Addr) : M unit :=
  store_ctx cbs (IoCtx LUA_NOREF LUA_NOREF).

Definition luv_io_ctx_add (cbs : Addr) (index : Z) : M unit :=
  lua_pushvalue index ;;
  r ← luaL_ref_registry;
  c ← load_ctx cbs;
  store_ctx cbs (IoCtx (rcb c) r).

Definition luv_io_ctx_callback_add (cbs : Addr) (index : Z) : M unit :=
  lua_pushvalue index ;;
  r ← luaL_ref_registry;
  c ← load_ctx cbs;
  store_ctx cbs (IoCtx r (rdata c)).

Definition luv_io_ctx_callback_rawgeti (cbs : Addr) : M unit :=
  c ← load_ctx cbs;
  lua_rawgeti_registry (rcb c).

Definition luv_io_ctx_unref (cbs : Addr) : M unit :=
  c ← load_ctx cbs;
  luaL_unref_registry (rdata c) ;;
  luaL_unref_registry (rcb c).

(** Modelled from the spec: the buffer type is missing; it is a "mutable
    byte sequence with [slice(offset, length) -> buffer], a boolean
    read-only flag, and raw-pointer/length access".  [buffer_slice] leaves
    the new buffer object on the stack. *)
Definition buffer_new : M Addr :=
  bs ← gets buffers;
  let a := next_key bs in
  modify (set_buffers (<[a := Buffer [] 0]> bs)) ;;
  lua_push (VBuffer a) ;;
  mret a.

Definition buffer_slice (b : Addr) (offset length : Z) : M unit :=
  x ← load_buffer b;
  a ← buffer_new;
  store_buffer a
    (Buffer (take (Z.to_nat length) (drop (Z.to_nat offset) (data x))) 0).

Definition buffer_get (idx : Z) : M Addr :=
  s ← gets stack;
  match index2value s idx with
  | Some (VBuffer b) => mret b
  | _ => luaL_error "bad argument (buffer expected)"
  end.

(** [BUFFER_DATA(chunk)]: the storage of a buffer object, named by the
    object's address. *)
Definition BUFFER_DATA (chunk : Addr) : Addr := chunk.

(** ** The native layer (libuv), as far as the bindings drive it. *)

Definition uv_call_rc (name : string) (handle : Addr) : M Z :=
  gets (λ w, uv_rc (native w) name handle).

Definition uv_listen (handle : Addr) (backlog : Z) : M Z :=
  rc ← uv_call_rc "uv_listen" handle;
  if rc =? 0 then
    x ← load_stream handle;
    store_stream handle (set_uv_backlog (Some backlog) x) ;;
    mret rc
  else mret rc.

Definition uv_accept (server client : Addr) : M Z :=
  uv_call_rc "uv_accept" server.

Definition set_reading (handle : Addr) (b : bool) : M unit :=
  x ← load_stream handle;
  store_stream handle (set_uv_reading b x).

Definition uv_read_start (handle : Addr) : M unit := set_reading handle true.
Definition uv_read_stop (handle : Addr) : M unit := set_reading handle false.

(** [uv_write] and [uv_shutdown] fill in the request header and queue the
    request; its completion arrives later, once. *)
Definition uv_write (req handle : Addr) (bufs : list uv_buf_t) : M unit :=
  r ← load_req req;
  store_req req (UvReq UV_WRITE handle (req_data r) bufs).

Definition uv_shutdown (req handle : Addr) : M unit :=
  r ← load_req req;
  store_req req (UvReq UV_SHUTDOWN handle (req_data r) []).

Definition uv_buf_init (base : Addr) (len : Z) : uv_buf_t := UvBuf base len.

(** [req->data = cbs]. *)
Definition set_req_data (req cbs : Addr) : M unit :=
  r ← load_req req;
  store_req req (UvReq (req_type r) (req_handle r) cbs (req_bufs r)).

(** [handle->data]: the [luv_handle_t] of a stream; both are kept in one
    [stream] record under the stream's address. *)
Definition handle_data (handle : Addr) : Addr := handle.

(** [lhandle->buffer]. *)
Definition lhandle_buffer (lhandle : Addr) : M Addr :=
  x ← load_stream lhandle;
  mret (buffer_ x).

(** [req->handle->data] and [req->data]. *)
Definition req_handle_data (req : Addr) : M Addr :=
  r ← load_req req;
  mret (handle_data (req_handle r)).

Definition req_data_of (req : Addr) : M Addr :=
  r ← load_req req;
  mret (req_data r).

(** ** [luv_stream.c] *)

Definition luv_on_connection (handle : Addr) (status : Z) : M unit :=
  (* load the lua state and the userdata *)
  luv_handle_get_lua (handle_data handle) ;;
  if status =? -1 then
    err ← uv_last_error;
    luv_push_async_error err "on_connection" ;;
    luv_emit_event "error" 1
  else
    luv_emit_event "connection" 0.

Definition readonly_msg : string :=
  "Accidentally wrote incoming data into a readonly buffer. Did you resume a coroutine from inside a data event listener?".

Definition luv_on_read (handle : Addr) (nread : Z) (buf : uv_buf_t) : M unit :=
  (* load the lua state and the userdata *)
  luv_handle_get_lua (handle_data handle) ;;
  (if 0 <=? nread then
     let lhandle := handle_data handle in
     b ← lhandle_buffer lhandle;
     x ← load_buffer b;
     when (isConst x =? 1) (luaL_error readonly_msg) ;;
     h ← load_stream lhandle;
     lua_rawgeti_registry (ref h) ;;
     (* got our buffer (filled by libuv) now slice it (probably a no-op) *)
     b ← lhandle_buffer lhandle;
     x ← load_buffer b;
     when (negb (nread =? length_ x))
          (buffer_slice b 0 nread ;;
           lua_remove (-2)) ;;
     lua_pushinteger nread ;;
     b ← lhandle_buffer lhandle;
     set_isConst b 1 ;;
     luv_emit_event "data" 2 ;;
     b ← lhandle_buffer lhandle;
     set_isConst b 0
   else
     err ← uv_last_error;
     if code err =? UV_EOF then
       luv_emit_event "end" 0
     else
       err ← uv_last_error;
       luv_push_async_error err "on_read" ;;
       luv_emit_event "error" 1) ;;
  free (base buf).

Definition luv_after_connect (req : Addr) (status : Z) : M unit :=
  (* load the lua state and the userdata *)
  lhandle ← req_handle_data req;
  luv_handle_get_lua lhandle ;;
  (if status =? -1 then
     err ← uv_last_error;
     luv_push_async_error err "after_connect" ;;
     luv_emit_event "error" 1
   else
     luv_emit_event "connect" 0) ;;
  free req.

Definition luv_after_shutdown (req : Addr) (status : Z) : M unit :=
  cbs ← req_data_of req;
  (* load the lua state and the userdata *)
  lhandle ← req_handle_data req;
  luv_handle_get_lua lhandle ;;
  lua_pop 1 ;; (* We don't need the userdata *)
  (* load the request callback *)
  luv_io_ctx_callback_rawgeti cbs ;;
  luv_io_ctx_unref cbs ;;
  isf ← lua_isfunction (-1);
  (if (isf : bool) then
     if status =? -1 then
       err ← uv_last_error;
       luv_push_async_error err "after_shutdown" ;;
       luv_acall 1 0 "after_shutdown"
     else
       luv_acall 0 0 "after_shutdown"
   else
     lua_pop 1) ;;
  lhandle ← req_handle_data req;
  luv_handle_unref lhandle ;;
  d ← req_data_of req;
  free d ;;
  free req.

Definition luv_after_write (req : Addr) (status : Z) : M unit :=
  cbs ← req_data_of req;
  (* load the lua state and the userdata *)
  lhandle ← req_handle_data req;
  luv_handle_get_lua lhandle ;;
  lua_pop 1 ;; (* We don't need the userdata *)
  (* load the request callback *)
  luv_io_ctx_callback_rawgeti cbs ;;
  luv_io_ctx_unref cbs ;;
  isf ← lua_isfunction (-1);
  (if (isf : bool) then
     if status =? -1 then
       err ← uv_last_error;
       luv_push_async_error err "after_write" ;;
       luv_acall 1 0 "after_write"
     else
       luv_acall 0 0 "after_write"
   else
     lua_pop 1) ;;
  lhandle ← req_handle_data req;
  luv_handle_unref lhandle ;;
  d ← req_data_of req;
  free d ;;
  free req.

Definition new_req : block := BReq (UvReq UV_UNKNOWN_REQ NULL NULL []).
Definition new_ctx : block := BCtx (IoCtx 0 0).

Definition luv_shutdown : M Z :=
  handle ← luv_checkudata 1 "stream";
  req ← malloc new_req;
  cbs ← malloc new_ctx;
  luv_io_ctx_init cbs ;;
  (* Store a reference to the callback *)
  luv_io_ctx_callback_add cbs 2 ;;
  set_req_data req cbs ;;
  luv_handle_ref (handle_data handle) 1 ;;
  uv_shutdown req handle ;;
  mret 0.

Definition luv_listen : M Z :=
  handle ← luv_checkudata 1 "stream";
  luaL_checktype_function 2 ;;
  backlog_size ← luaL_optint 3 128;
  luv_register_event 1 "connection" 2 ;;
  rc ← uv_listen handle backlog_size;
  when (negb (rc =? 0))
       (err ← uv_last_error;
        strerror ← gets (λ w, uv_strerror (native w));
        luaL_error ("listen: " +:+ strerror err)) ;;
  lua_pushvalue 1 ;;
  luv_emit_event "listening" 0 ;;
  luv_handle_ref (handle_data handle) 1 ;;
  mret 0.

Definition luv_accept : M Z :=
  server ← luv_checkudata 1 "stream";
  client ← luv_checkudata 2 "stream";
  rc ← uv_accept server client;
  when (negb (rc =? 0))
       (err ← uv_last_error;
        strerror ← gets (λ w, uv_strerror (native w));
        luaL_error ("accept: " +:+ strerror err)) ;;
  mret 0.

Definition luv_read_start : M Z :=
  handle ← luv_checkudata 1 "stream";
  uv_read_start handle ;;
  luv_handle_ref (handle_data handle) 1 ;;
  mret 0.

Definition luv_read_start2 : M Z :=
  luaL_error "TODO: Implement luv_read_start2".

Definition luv_read_stop : M Z :=
  handle ← luv_checkudata 1 "stream";
  uv_read_stop handle ;;
  luv_handle_unref (handle_data handle) ;;
  mret 0.

Definition luv_read_stop_noref : M Z :=
  handle ← luv_checkudata 1 "stream";
  uv_read_stop handle ;;
  mret 0.

Definition luv_write_queue_size : M Z :=
  handle ← luv_checkudata 1 "stream";
  x ← load_stream handle;
  lua_pushnumber (write_queue_size x) ;;
  mret 1.

Definition luv_write : M Z :=
  handle ← luv_checkudata 1 "stream";
  chunk ← buffer_get 2;
  req ← malloc new_req;
  cbs ← malloc new_ctx;
  luv_io_ctx_init cbs ;;
  (* Store a reference to the callback *)
  luv_io_ctx_add cbs 2 ;;
  luv_io_ctx_callback_add cbs 3 ;;
  set_req_data req cbs ;;
  luv_handle_ref (handle_data handle) 1 ;;
  x ← load_buffer chunk;
  let buf := uv_buf_init (BUFFER_DATA chunk) (length_ x) in
  uv_write req handle [buf] ;;
  mret 0.

Definition luv_write2 : M Z :=
  luaL_error "TODO: Implement luv_write2".

(** ** [lenv.c], the POSIX branch of [lenv_get] *)

Fixpoint bytes_of_string (s : string) : list Z :=
  match s with
  | EmptyString => []
  | String a s' => Z.of_nat (Ascii.nat_of_ascii a) :: bytes_of_string s'
  end.

(** libc [getenv] over [environ], whose entries read [NAME=value]: the
    value of the first entry for [name], or [NULL] ([None]). *)
Fixpoint getenv_in (env : list string) (name : string) : option string :=
  match env with
  | [] => None
  | e :: env' =>
      if String.prefix (name +:+ "=") e
      then Some (String.substring (S (String.length name))
                   (String.length e - S (String.length name)) e)
      else getenv_in env' name
  end.

Definition getenv (name : string) : M (option string) :=
  gets (λ w, getenv_in (environ w) name).

(** libc [strlen]: reads through its argument. *)
Definition strlen (s : option string) : M Z :=
  match s with
  | None => abort NullDeref
  | Some x => mret (Z.of_nat (String.length x))
  end.

(** Modelled from the spec: [buffer_wrap] is missing; the buffer takes the
    [len] bytes at [value] as its content. *)
Definition buffer_wrap (buf : Addr) (value : option string) (len : Z) : M unit :=
  match value with
  | None => abort NullDeref
  | Some x => store_buffer buf (Buffer (take (Z.to_nat len) (bytes_of_string x)) 0)
  end.

(** The arguments of [buffer_wrap] are evaluated before the call, in an
    order C leaves open; [strlen(value)] is among them. *)
Definition lenv_get : M Z :=
  name ← luaL_checkstring 1;
  value ← getenv name;
  buf ← buffer_new;
  n ← strlen value;
  buffer_wrap buf value n ;;
  mret 1.


(** [lenv_keys] of [lenv.c]. *)

(** The character ['=']. *)
Definition eq_char : Ascii.ascii := Ascii.ascii_of_nat 61.

(** [strchr(var, '=')] as the offset of the first ['='], if there is
    one. *)
Fixpoint strchr_eq (var : string) : option nat :=
  match var with
  | EmptyString => None
  | String a var' =>
      if Ascii.eqb a eq_char then Some 0%nat
      else S <$> strchr_eq var'
  end.

(** The string [lua_pushlstring(L, var, length)] pushes for an entry:
    [length] is [s - var] when [strchr] finds ['='] and [strlen(var)]
    otherwise. *)
Definition env_key (var : string) : string :=
  let length := match strchr_eq var with
                | Some n => n
                | None => String.length var
                end in
  String.substring 0 length var.

(** The [for] loop over [env[i]], [i = 0 .. size - 1]: each turn stores the
    key of [env[i]] at index [i + 1] of the table ([lua_rawseti]).  The
    table is kept as the finite map of its array part. *)
Fixpoint lenv_keys_loop (env : list string) (i : Z) (t : gmap Z Value)
    : gmap Z Value :=
  match env with
  | [] => t
  | var :: env' => lenv_keys_loop env' (i + 1) (<[i + 1 := VString (env_key var)]> t)
  end.

(** [lenv_keys]: the table it leaves as its one result. *)
Definition lenv_keys : M (gmap Z Value) :=
  env ← gets environ;
  mret (lenv_keys_loop env 0 ∅).
(** ** Vocabulary of the specifications *)

(** [wp m w Q E]: from [w], [m] returns normally into [Q] or raises a Lua
    error into [E]; it does not fault. *)
Definition wp {A} (m : M A) (w : World)
    (Q : A → World → Prop) (E : string → World → Prop) : Prop :=
  match m w with
  | Ok a w' => Q a w'
  | Raise msg w' => E msg w'
  | Abort _ => False
  end.

(** What an event dispatch adds to the trace: the event, then one call
    per listener, in registration order. *)
Definition calls (fns : list Value) (args : list Value) (name : string)
    (view : gmap Z buffer) : list Event :=
  map (λ fn, Call fn args name view) fns.

Definition dispatch (h : Addr) (name : string) (args : list Value)
    (fns : list Value) (view : gmap Z buffer) : list Event :=
  Emit h name args view :: calls fns args name view.

Definition unref (n : Z) (r : gmap Z Value) : gmap Z Value :=
  if 0 <=? n then delete n r else r.

(** The call a request completion makes: the registered callback, when it
    is a function, with one error value on status [-1] and with no
    argument otherwise. *)
Definition callback_call (source : string) (status : Z) (cb : Value)
    (w : World) : list Event :=
  if is_function cb then
    [Call cb (if status =? -1 then [VError source (code (last_error w))] else [])
          source (buffers w)]
  else [].

Definition keep_alive (w : World) (h : Addr) : option Z :=
  refCount <$> streams w !! h.

(** The world a write or shutdown completion leaves. *)
Definition completed (source : string) (req : Addr) (status : Z)
    (r : uv_req_t) (c : luv_io_ctx_t) (x : stream) (w : World) : World :=
  MkWorld (stack w)
    (unref (rcb c) (unref (rdata c) (registry w)))
    (<[req_handle r := set_refCount (refCount x - 1) x]> (streams w))
    (buffers w)
    (<[req := BFreed]> (<[req_data r := BFreed]> (heap w)))
    (frees w ++ [req_data r; req])
    (last_error w) (native w) (environ w)
    (trace w ++ callback_call source status
                  (default VNil (registry w !! rcb c)) w).

(** The world [luv_write] leaves, and the names of what it allocates. *)
Definition write_req (w : World) : Addr := next_key (heap w).
Definition write_ctx (w : World) : Addr :=
  next_key (<[write_req w := new_req]> (heap w)).
Definition write_rdata (w : World) : Z := next_key (registry w).
Definition write_rcb (w : World) (chunk : Addr) : Z :=
  next_key (<[write_rdata w := VBuffer chunk]> (registry w)).

Definition written (h chunk : Addr) (cb : Value) (x : stream) (bx : buffer)
    (w : World) : World :=
  MkWorld (stack w)
    (<[write_rcb w chunk := cb]>
       (<[write_rdata w := VBuffer chunk]> (registry w)))
    (<[h := set_refCount (refCount x + 1) x]> (streams w))
    (buffers w)
    (<[write_req w :=
         BReq (UvReq UV_WRITE h (write_ctx w)
                 [UvBuf (BUFFER_DATA chunk) (length_ bx)])]>
       (<[write_ctx w := BCtx (IoCtx (write_rcb w chunk) (write_rdata w))]>
          (heap w)))
    (frees w) (last_error w) (native w) (environ w) (trace w).

(** How many times [free] was called on an address. *)
Definition times_freed (w : World) (a : Addr) : nat :=
  count_occ Z.eq_dec (frees w) a.

(** The buffer handed to a "data" listener, and the buffer store after
    the slicing step of [luv_on_read]. *)
Definition data_arg (nread : Z) (hs : stream) (bx : buffer) (w : World) : Value :=
  if nread =? length_ bx then default VNil (registry w !! ref hs)
  else VBuffer (next_key (buffers w)).

Definition sliced (nread : Z) (bx : buffer) (w : World) : gmap Z buffer :=
  if nread =? length_ bx then buffers w
  else <[next_key (buffers w) := Buffer (take (Z.to_nat nread) (data bx)) 0]>
         (buffers w).

(** The worlds [luv_on_read] leaves on its three branches. *)
Definition read_data (h : Addr) (nread : Z) (buf : uv_buf_t)
    (hs : stream) (bx : buffer) (w : World) : World :=
  MkWorld (stack w) (registry w) (streams w)
    (<[buffer_ hs := Buffer (data bx) 0]> (sliced nread bx w))
    (<[base buf := BFreed]> (heap w))
    (frees w ++ [base buf])
    (last_error w) (native w) (environ w)
    (trace w ++
     dispatch h "data" [data_arg nread hs bx w; VInteger nread]
       (default [] (listeners hs !! "data"))
       (<[buffer_ hs := Buffer (data bx) 1]> (sliced nread bx w))).

Definition read_event (h : Addr) (name : string) (args : list Value)
    (buf : uv_buf_t) (hs : stream) (w : World) : World :=
  MkWorld (stack w) (registry w) (streams w) (buffers w)
    (<[base buf := BFreed]> (heap w))
    (frees w ++ [base buf])
    (last_error w) (native w) (environ w)
    (trace w ++ dispatch h name args (default [] (listeners hs !! name))
                  (buffers w)).


(** ** Example worlds *)

Definition uv_ok : uv_native :=
  UvNative (λ _ _, 0) (λ _, "unknown error").

Definition uv_failing : uv_native :=
  UvNative (λ _ _, -1) (λ _, "address already in use").

(** A stream at [100] with a five-byte read buffer at [10], registered
    under the handle's reference, listeners for "data" and "connection",
    and a native allocation at [50]. *)
Definition example_stream : stream :=
  Stream 0 1 10 0
    {[ "data" := [VFunction 7]; "connection" := [VFunction 8] ]}
    false None.

Definition example_world : World :=
  MkWorld [] {[ 1 := VBuffer 10 ]}
    {[ 100 := example_stream ]}
    {[ 10 := Buffer [104; 101; 108; 108; 111] 0 ]}
    {[ 50 := BRaw [0; 0; 0; 0; 0] ]}
    [] (UvErr 0) uv_ok ["HOME=/root"; "PATH=/bin"] [].

(** The frame of a call [write(handle, buffer, cb)]. *)
Definition write_call : World :=
  set_stack [VUserdata 100; VBuffer 10; VFunction 9] example_world.

(** The worlds the other handlers and operations leave. *)
Definition connection_event (h : Addr) (status : Z) (hs : stream) (w : World)
    : World :=
  set_trace
    (trace w ++
     if status =? -1 then
       dispatch h "error" [VError "on_connection" (code (last_error w))]
         (default [] (listeners hs !! "error")) (buffers w)
     else
       dispatch h "connection" [] (default [] (listeners hs !! "connection"))
         (buffers w))
    w.

Definition connected (req : Addr) (status : Z) (r : uv_req_t) (hs : stream)
    (w : World) : World :=
  MkWorld (stack w) (registry w) (streams w) (buffers w)
    (<[req := BFreed]> (heap w))
    (frees w ++ [req])
    (last_error w) (native w) (environ w)
    (trace w ++
     if status =? -1 then
       dispatch (req_handle r) "error"
         [VError "after_connect" (code (last_error w))]
         (default [] (listeners hs !! "error")) (buffers w)
     else
       dispatch (req_handle r) "connect" []
         (default [] (listeners hs !! "connect")) (buffers w)).

Definition read_started (h : Addr) (x : stream) (w : World) : World :=
  set_streams
    (<[h := set_refCount (refCount x + 1) (set_uv_reading true x)]> (streams w))
    w.

Definition read_stopped (h : Addr) (x : stream) (w : World) : World :=
  set_streams
    (<[h := set_refCount (refCount x - 1) (set_uv_reading false x)]> (streams w))
    w.

(** The handle's buffer found read-only on entry: [luv_on_read] is
    entered again from inside a "data" listener. *)
Definition reentered_world : World :=
  set_buffers {[ 10 := Buffer [104; 101; 108; 108; 111] 1 ]} example_world.

(** The discipline of a request completion: the callback context is
    recovered from the request, the callback reference is looked up and
    released, the callback (when there is one) is invoked with an error
    value on failure and no argument on success, the handle's keep-alive
    reference is released, and the context and the request are freed. *)
Definition completion_discipline (source : string) (req : Addr) (status : Z)
    (w w' : World) : Prop :=
  ∃ r c x,
    heap w !! req = Some (BReq r) ∧
    heap w !! req_data r = Some (BCtx c) ∧
    streams w !! req_handle r = Some x ∧
    (0 ≤ rcb c → registry w' !! rcb c = None) ∧
    trace w' = trace w ++
      callback_call source status (default VNil (registry w !! rcb c)) w ∧
    keep_alive w' (req_handle r) = Some (refCount x - 1) ∧
    heap w' !! req_data r = Some BFreed ∧
    heap w' !! req = Some BFreed ∧
    times_freed w' (req_data r) = S (times_freed w (req_data r)) ∧
    times_freed w' req = S (times_freed w req).

(** A connect request at [60] on the stream at [100], holding one
    keep-alive reference, with a callback context at [61] whose callback
    is registered under [2]. *)
Definition connect_world : World :=
  MkWorld [] {[ 1 := VBuffer 10; 2 := VFunction 9 ]}
    {[ 100 := set_refCount 1 example_stream ]}
    {[ 10 := Buffer [104; 101; 108; 108; 111] 0 ]}
    {[ 60 := BReq (UvReq UV_CONNECT 100 61 []);
       61 := BCtx (IoCtx 2 LUA_NOREF) ]}
    [] (UvErr 0) uv_ok [] [].

(** The "connection" listeners of a handle. *)
Definition connection_listeners (w : World) (h : Addr) : list Value :=
  default [] (hs ← streams w !! h; listeners hs !! "connection").

(** The frame of a call [listen(handle, cb)] on a world whose native
    layer refuses to listen. *)
Definition listen_call : World :=
  MkWorld [VUserdata 100; VFunction 9] {[ 1 := VBuffer 10 ]}
    {[ 100 := Stream 0 1 10 0 ∅ false None ]}
    {[ 10 := Buffer [104; 101; 108; 108; 111] 0 ]}
    ∅ [] (UvErr 0) uv_failing [] [].

(** What the third argument of [listen] may be: absent, nil or a number. *)
Definition optint_arg (o : option Value) : Prop :=
  match o with
  | None | Some VNil | Some (VInteger _) => True
  | Some _ => False
  end.

(** The frame of a call [get(name)] of the environment module. *)
Definition getenv_call (name : string) : World :=
  set_stack [VString name] example_world.

(** ** The operations of [luv_stream.c] as steps of the event loop *)

(** The functions the module registers for script code. *)
Inductive api : Type :=
| Shutdown | Listen | Accept | ReadStart | ReadStart2 | ReadStop
| ReadStopNoref | WriteQueueSize | Write | Write2.

Definition api_function (f : api) : M Z :=
  match f with
  | Shutdown => luv_shutdown
  | Listen => luv_listen
  | Accept => luv_accept
  | ReadStart => luv_read_start
  | ReadStart2 => luv_read_start2
  | ReadStop => luv_read_stop
  | ReadStopNoref => luv_read_stop_noref
  | WriteQueueSize => luv_write_queue_size
  | Write => luv_write
  | Write2 => luv_write2
  end.

(** A step: script code calls one of the functions with its arguments, or
    the native layer invokes one of the handlers. *)
Inductive op : Type :=
| CallApi (f : api) (args : list Value)
| OnConnection (handle : Addr) (status : Z)
| OnRead (handle : Addr) (nread : Z) (buf : uv_buf_t)
| AfterConnect (req : Addr) (status : Z)
| AfterShutdown (req : Addr) (status : Z)
| AfterWrite (req : Addr) (status : Z).

(** A function called from script code runs in a stack frame of its own,
    which holds its arguments; the frame is dropped when it returns or
    raises. *)
Definition in_frame (args : list Value) (m : M Z) : M unit := λ w,
  match m (set_stack args w) with
  | Ok _ w' => Ok tt (set_stack (stack w) w')
  | Raise msg w' => Raise msg (set_stack (stack w) w')
  | Abort f => Abort f
  end.

Definition run_op (o : op) : M unit :=
  match o with
  | CallApi f args => in_frame args (api_function f)
  | OnConnection handle status => luv_on_connection handle status
  | OnRead handle nread buf => luv_on_read handle nread buf
  | AfterConnect req status => luv_after_connect req status
  | AfterShutdown req status => luv_after_shutdown req status
  | AfterWrite req status => luv_after_write req status
  end.

(** What the native layer guarantees about a step while the request
    [pending] is in flight: the request's completion has not arrived, and
    the buffer handed to [luv_on_read] is an allocation of the read
    path. *)
Definition enabled (pending : Addr) (o : op) (w : World) : Prop :=
  match o with
  | CallApi _ _ | OnConnection _ _ => True
  | OnRead _ _ buf => ∃ bytes, heap w !! base buf = Some (BRaw bytes)
  | AfterConnect req _ | AfterShutdown req _ | AfterWrite req _ =>
      req ≠ pending
  end.

(** A Lua error ends the step and leaves the world it was raised in. *)
Inductive step (pending : Addr) (w w' : World) : Prop :=
| step_returns o : enabled pending o w → run_op o w = Ok tt w' → step pending w w'
| step_raises o msg :
    enabled pending o w → run_op o w = Raise msg w' → step pending w w'.

(** The references a pending write holds: its request points at its
    callback context, whose two ids are registered to the buffer and to
    the callback, and the buffer object holds its bytes. *)
Definition pinned (req chunk : Addr) (cb : Value) (bytes : list Z)
    (w : World) : Prop :=
  ∃ r c,
    heap w !! req = Some (BReq r) ∧
    heap w !! req_data r = Some (BCtx c) ∧
    registry w !! rdata c = Some (VBuffer chunk) ∧
    registry w !! rcb c = Some cb ∧
    data <$> buffers w !! chunk = Some bytes.

(** No context holds an id that is not registered, and no request points
    at memory that was never allocated. *)
Definition registered (w : World) (n : Z) : Prop :=
  n < 0 ∨ is_Some (registry w !! n).

Definition well_formed (w : World) : Prop :=
  (∀ a c, heap w !! a = Some (BCtx c) →
          registered w (rdata c) ∧ registered w (rcb c)) ∧
  (∀ a r, heap w !! a = Some (BReq r) →
          req_data r = NULL ∨ is_Some (heap w !! req_data r)).

(** What the steps preserve while the request is pending. *)
Record protected (req : Addr) (r0 : uv_req_t) (c0 : luv_io_ctx_t)
    (chunk : Addr) (cb : Value) (bytes : list Z) (w : World) : Prop :=
  Protected {
    prot_req : heap w !! req = Some (BReq r0);
    prot_ctx : heap w !! req_data r0 = Some (BCtx c0);
    prot_rdata : registry w !! rdata c0 = Some (VBuffer chunk);
    prot_rcb : registry w !! rcb c0 = Some cb;
    prot_bytes : data <$> buffers w !! chunk = Some bytes;
    prot_req_pos : req ≠ NULL;
    prot_ctx_pos : req_data r0 ≠ NULL;
    prot_rdata_pos : 1 ≤ rdata c0;
    prot_rcb_pos : 1 ≤ rcb c0;
    prot_ctxs : ∀ a c,
      a ≠ req_data r0 → heap w !! a = Some (BCtx c) →
      rdata c ≠ rdata c0 ∧ rdata c ≠ rcb c0 ∧
      rcb c ≠ rdata c0 ∧ rcb c ≠ rcb c0;
    prot_reqs : ∀ a r,
      a ≠ req → heap w !! a = Some (BReq r) →
      req_data r ≠ req_data r0 ∧ req_data r ≠ req
  }.

(** An id that is neither of the two a context holds. *)
Definition other_id (c0 : luv_io_ctx_t) (n : Z) : Prop :=
  n ≠ rdata c0 ∧ n ≠ rcb c0.

(** [keeps J m φ]: [m] preserves [J], also when it raises, and what it
    returns satisfies [φ]. *)
Definition keeps (J : World → Prop) {A} (m : M A) (φ : A → Prop) : Prop :=
  ∀ w, J w →
    match m w with
    | Ok a w' => J w' ∧ φ a
    | Raise _ w' => J w'
    | Abort _ => True
    end.

(** The part of the world [protected] reads. *)
Definition core (w : World) : gmap Z Value * gmap Z block * gmap Z (list Z) :=
  (registry w, heap w, data <$> buffers w).

(** [frame m]: [m] leaves the registry, the heap and the bytes of the
    buffers as they are. *)
Definition frame {A} (m : M A) : Prop :=
  ∀ w,
    match m w with
    | Ok _ w' | Raise _ w' => core w' = core w
    | Abort _ => True
    end.

(** ** Worlds left by the other operations *)

(** The backlog [luv_listen] asks for: its third argument, [128] when the
    argument is absent or nil. *)
Definition backlog_arg (rest : list Value) : Z :=
  match rest !! 0%nat with
  | Some (VInteger n) => n
  | _ => 128
  end.

(** The world a successful [luv_listen] leaves. *)
Definition listening (h : Addr) (cb : Z) (rest : list Value) (hs : stream)
    (w : World) : World :=
  MkWorld (stack w) (registry w)
    (<[h := set_refCount (refCount hs + 1)
              (set_uv_backlog (Some (backlog_arg rest))
                 (set_listeners
                    (<[ "connection"
                        := default [] (listeners hs !! "connection")
                           ++ [VFunction cb] ]> (listeners hs)) hs))]>
       (streams w))
    (buffers w) (heap w) (frees w) (last_error w) (native w) (environ w)
    (trace w ++ dispatch h "listening" []
                  (default [] (listeners hs !! "listening")) (buffers w)).

(** The world [luv_shutdown] leaves; it allocates its request and its
    context as [luv_write] does, and registers the callback alone. *)
Definition shut_down (h : Addr) (cb : Value) (x : stream) (w : World) : World :=
  MkWorld (stack w)
    (<[write_rdata w := cb]> (registry w))
    (<[h := set_refCount (refCount x + 1) x]> (streams w))
    (buffers w)
    (<[write_req w := BReq (UvReq UV_SHUTDOWN h (write_ctx w) [])]>
       (<[write_ctx w := BCtx (IoCtx (write_rdata w) LUA_NOREF)]> (heap w)))
    (frees w) (last_error w) (native w) (environ w) (trace w).

(** The world [luv_write] leaves when no callback is passed. *)
Definition written_without_callback (h chunk : Addr) (x : stream)
    (bx : buffer) (w : World) : World :=
  MkWorld (stack w)
    (<[write_rdata w := VBuffer chunk]> (registry w))
    (<[h := set_refCount (refCount x + 1) x]> (streams w))
    (buffers w)
    (<[write_req w :=
         BReq (UvReq UV_WRITE h (write_ctx w)
                 [UvBuf (BUFFER_DATA chunk) (length_ bx)])]>
       (<[write_ctx w := BCtx (IoCtx LUA_REFNIL (write_rdata w))]> (heap w)))
    (frees w) (last_error w) (native w) (environ w) (trace w).

(** The heap once a request and its context have been freed. *)
Definition both_freed (w : World) : gmap Z block :=
  <[write_req w := BFreed]> (<[write_ctx w := BFreed]> (heap w)).

(** A stack whose first argument is not a stream, and one whose second
    argument is not a buffer or not a function. *)
Definition not_userdata (o : option Value) : Prop :=
  match o with Some (VUserdata _) => False | _ => True end.
Definition not_buffer (o : option Value) : Prop :=
  match o with Some (VBuffer _) => False | _ => True end.
Definition not_function (o : option Value) : Prop :=
  match o with Some (VFunction _) => False | _ => True end.

(** The frame of a call [shutdown(handle, cb)]. *)
Definition shutdown_call : World :=
  set_stack [VUserdata 100; VFunction 9] example_world.

(** The frame of a call [listen(handle, cb, 16)] with a native layer that
    accepts. *)
Definition listen_ok_call : World :=
  set_stack [VUserdata 100; VFunction 9; VInteger 16] example_world.

(** The frame of a call [write(handle, buffer)]. *)
Definition write_call_without_callback : World :=
  set_stack [VUserdata 100; VBuffer 10] example_world.

(** * Verification *)

(** ** Reasoning about runs *)

Lemma bind_run {A B} (m : M A) (k : A → M B) w :
  (m ≫= k) w =
  match m w with
  | Ok a w' => k a w'
  | Raise msg w' => Raise msg w'
  | Abort f => Abort f
  end.
Proof. reflexivity. Qed.

Lemma wp_bind {A B} (m : M A) (k : A → M B) w Q E :
  wp m w (λ a w', wp (k a) w' Q E) E → wp (m ≫= k) w Q E.
Proof. unfold wp. rewrite bind_run. by destruct (m w). Qed.

Lemma wp_ret {A} (a : A) w (Q : A → World → Prop) E :
  Q a w → wp (mret a) w Q E.
Proof. done. Qed.

Lemma wp_gets {A} (f : World → A) w (Q : A → World → Prop) E :
  Q (f w) w → wp (gets f) w Q E.
Proof. done. Qed.

Lemma wp_modify (f : World → World) w (Q : unit → World → Prop) E :
  Q tt (f w) → wp (modify f) w Q E.
Proof. done. Qed.

Lemma wp_raise {A} msg w (Q : A → World → Prop) (E : string → World → Prop) :
  E msg w → wp (luaL_error msg) w Q E.
Proof. done. Qed.

Lemma wp_run {A} (m : M A) w r :
  wp m w (λ a w', r = Ok a w') (λ msg w', r = Raise msg w') → m w = r.
Proof. unfold wp. destruct (m w); [by intros -> ..|done]. Qed.

Lemma wp_of_run {A} (m : M A) w a w' (Q : A → World → Prop) E :
  m w = Ok a w' → Q a w' → wp m w Q E.
Proof. unfold wp. by intros ->. Qed.

(** Freshness of [next_key]. *)
Lemma map_fold_max_ge {A} (m : gmap Z A) k :
  is_Some (m !! k) → k ≤ map_fold (λ k _ acc, Z.max k acc) 0 m.
Proof.
  induction m as [|i x m Hi Hfold IH] using map_first_key_ind.
  - rewrite lookup_empty. by intros [? ?].
  - rewrite map_fold_insert_first_key by done.
    rewrite lookup_insert. case_decide as Hk.
    + subst. lia.
    + intros H. specialize (IH H). lia.
Qed.

Lemma next_key_fresh {A} (m : gmap Z A) : m !! next_key m = None.
Proof.
  destruct (m !! next_key m) eqn:E; [|done].
  assert (next_key m ≤ map_fold (λ k _ acc, Z.max k acc) 0 m) as H
    by (apply map_fold_max_ge; eauto).
  unfold next_key in H. lia.
Qed.

Lemma map_fold_max_nonneg {A} (m : gmap Z A) :
  0 ≤ map_fold (λ k _ acc, Z.max k acc) 0 m.
Proof.
  induction m as [|i x m Hi Hfold IH] using map_first_key_ind.
  - by rewrite map_fold_empty.
  - rewrite map_fold_insert_first_key by done. lia.
Qed.

Lemma next_key_pos {A} (m : gmap Z A) : 1 ≤ next_key m.
Proof. unfold next_key. pose proof (map_fold_max_nonneg m). lia. Qed.

Lemma next_key_ne {A} (m : gmap Z A) k : is_Some (m !! k) → next_key m ≠ k.
Proof. intros [x Hx] <-. by rewrite next_key_fresh in Hx. Qed.

Arguments set_stack _ _ /.
Arguments set_registry _ _ /.
Arguments set_streams _ _ /.
Arguments set_buffers _ _ /.
Arguments set_heap _ _ /.
Arguments set_frees _ _ /.
Arguments set_trace _ _ /.

(** Boolean comparisons in hypotheses, as linear arithmetic. *)
Ltac zbool :=
  repeat match goal with
  | H : (_ <? _) = true |- _ => apply Z.ltb_lt in H
  | H : (_ <? _) = false |- _ => apply Z.ltb_ge in H
  | H : (_ <=? _) = true |- _ => apply Z.leb_le in H
  | H : (_ <=? _) = false |- _ => apply Z.leb_gt in H
  | H : (_ =? _) = true |- _ => apply Z.eqb_eq in H
  | H : (_ =? _) = false |- _ => apply Z.eqb_neq in H
  | H : (_ && _) = true |- _ => apply andb_true_iff in H; destruct H
  | H : (_ && _) = false |- _ => apply andb_false_iff in H; destruct H
  | H : (_ || _) = true |- _ => apply orb_true_iff in H; destruct H
  | H : (_ || _) = false |- _ => apply orb_false_iff in H; destruct H
  | H : negb _ = true |- _ => apply negb_true_iff in H
  | H : negb _ = false |- _ => apply negb_false_iff in H
  end.

Ltac zlia := zbool; first [lia | exfalso; lia].

(** Stack arithmetic. *)

Lemma take_app_pop {A} (s l : list A) n :
  Z.of_nat (length l) = n →
  take (length (s ++ l) - Z.to_nat n) (s ++ l) = s.
Proof.
  intros <-. rewrite Nat2Z.id, length_app.
  replace (length s + length l - length l)%nat with (length s) by lia.
  by rewrite take_app_length.
Qed.

Lemma index2value_pos s idx :
  0 < idx → index2value s idx = s !! Z.to_nat (idx - 1).
Proof.
  intros H. unfold index2value, abs_index.
  destruct (0 <? idx) eqn:E; [|zlia].
  destruct (1 <=? idx) eqn:E'; [done|lia].
Qed.

Lemma index2value_top s v : index2value (s ++ [v]) (-1) = Some v.
Proof.
  unfold index2value, abs_index. rewrite length_app.
  change (0 <? -1) with false. cbv iota.
  change (length [v]) with 1%nat.
  destruct (1 <=? _) eqn:E; [|zlia].
  replace (Z.to_nat _) with (length s) by lia.
  by rewrite list_lookup_middle.
Qed.

(** The primitives. *)

Section primitives.
Context (w : World) (E : string → World → Prop).

Lemma wp_lua_push v (Q : unit → World → Prop) :
    Q tt (set_stack (stack w ++ [v]) w) → wp (lua_push v) w Q E.
  Proof. done. Qed.

Lemma wp_lua_pushvalue idx (Q : unit → World → Prop) :
    Q tt (set_stack (stack w ++ [default VNil (index2value (stack w) idx)]) w) →
    wp (lua_pushvalue idx) w Q E.
  Proof. done. Qed.

Lemma wp_lua_pop s l n (Q : unit → World → Prop) :
    stack w = s ++ l → Z.of_nat (length l) = n →
    Q tt (set_stack s w) → wp (lua_pop n) w Q E.
  Proof.
    intros Hs Hn HQ. unfold lua_pop. apply wp_bind, wp_gets.
    rewrite Hs.
    destruct (_ <? _) eqn:Hlt.
    { rewrite length_app in Hlt. zlia. }
    apply wp_modify. by rewrite take_app_pop.
  Qed.

Lemma wp_lua_remove2 s a b (Q : unit → World → Prop) :
    stack w = s ++ [a; b] →
    Q tt (set_stack (s ++ [b]) w) → wp (lua_remove (-2)) w Q E.
  Proof.
    intros Hs HQ. unfold lua_remove. apply wp_bind, wp_gets.
    rewrite Hs. unfold abs_index. rewrite length_app.
    change (0 <? -2) with false. cbv iota.
    change (length [a; b]) with 2%nat.
    destruct (_ && _) eqn:Hc; [|zlia].
    apply wp_modify.
    replace (Z.to_nat _) with (length s) by lia.
    by rewrite delete_middle.
  Qed.

Lemma wp_lua_isfunction_top s v (Q : bool → World → Prop) :
    stack w = s ++ [v] →
    Q (is_function v) w → wp (lua_isfunction (-1)) w Q E.
  Proof.
    intros Hs HQ. unfold lua_isfunction. apply wp_bind, wp_gets.
    rewrite Hs, index2value_top. by apply wp_ret.
  Qed.

Lemma wp_lua_rawgeti_registry n (Q : unit → World → Prop) :
    Q tt (set_stack (stack w ++ [default VNil (registry w !! n)]) w) →
    wp (lua_rawgeti_registry n) w Q E.
  Proof. done. Qed.

Lemma wp_luaL_ref_registry s v (Q : Z → World → Prop) :
    stack w = s ++ [v] →
    (v = VNil → Q LUA_REFNIL (set_stack s w)) →
    (v ≠ VNil →
     Q (next_key (registry w))
       (set_registry (<[next_key (registry w) := v]> (registry w))
          (set_stack s w))) →
    wp luaL_ref_registry w Q E.
  Proof.
    intros Hs Hnil Hv. unfold luaL_ref_registry. apply wp_bind, wp_gets.
    rewrite Hs, last_snoc. apply wp_bind.
    eapply wp_lua_pop with (l := [v]); [done..|].
    destruct v; try (by apply wp_ret, Hnil);
      (apply wp_bind, wp_gets, wp_bind, wp_modify, wp_ret; by apply Hv).
  Qed.

Lemma wp_luaL_unref_registry n (Q : unit → World → Prop) :
    Q tt (if 0 <=? n then set_registry (delete n (registry w)) w else w) →
    wp (luaL_unref_registry n) w Q E.
  Proof. unfold luaL_unref_registry. by destruct (0 <=? n). Qed.

Lemma wp_malloc init (Q : Addr → World → Prop) :
    Q (next_key (heap w)) (set_heap (<[next_key (heap w) := init]> (heap w)) w) →
    wp (malloc init) w Q E.
  Proof. done. Qed.

Lemma wp_free a b (Q : unit → World → Prop) :
    a ≠ NULL → heap w !! a = Some b → b ≠ BFreed →
    Q tt (set_frees (frees w ++ [a]) (set_heap (<[a := BFreed]> (heap w)) w)) →
    wp (free a) w Q E.
  Proof.
    intros Ha Hb Hl HQ. unfold free.
    destruct (a =? NULL) eqn:Hn; [zlia|].
    apply wp_bind, wp_gets. rewrite Hb.
    by destruct b.
  Qed.

Lemma wp_load_req req r (Q : uv_req_t → World → Prop) :
    heap w !! req = Some (BReq r) → Q r w → wp (load_req req) w Q E.
  Proof. intros H HQ. unfold load_req. apply wp_bind, wp_gets. by rewrite H. Qed.

Lemma wp_store_req req r r' (Q : unit → World → Prop) :
    heap w !! req = Some (BReq r) →
    Q tt (set_heap (<[req := BReq r']> (heap w)) w) →
    wp (store_req req r') w Q E.
  Proof.
    intros H HQ. unfold store_req. apply wp_bind.
    by eapply wp_load_req.
  Qed.

Lemma wp_load_ctx cbs c (Q : luv_io_ctx_t → World → Prop) :
    heap w !! cbs = Some (BCtx c) → Q c w → wp (load_ctx cbs) w Q E.
  Proof. intros H HQ. unfold load_ctx. apply wp_bind, wp_gets. by rewrite H. Qed.

Lemma wp_store_ctx cbs c c' (Q : unit → World → Prop) :
    heap w !! cbs = Some (BCtx c) →
    Q tt (set_heap (<[cbs := BCtx c']> (heap w)) w) →
    wp (store_ctx cbs c') w Q E.
  Proof.
    intros H HQ. unfold store_ctx. apply wp_bind.
    by eapply wp_load_ctx.
  Qed.

Lemma wp_load_stream h x (Q : stream → World → Prop) :
    streams w !! h = Some x → Q x w → wp (load_stream h) w Q E.
  Proof. intros H HQ. unfold load_stream. apply wp_bind, wp_gets. by rewrite H. Qed.

Lemma wp_store_stream h x x' (Q : unit → World → Prop) :
    streams w !! h = Some x →
    Q tt (set_streams (<[h := x']> (streams w)) w) →
    wp (store_stream h x') w Q E.
  Proof.
    intros H HQ. unfold store_stream. apply wp_bind.
    by eapply wp_load_stream.
  Qed.

Lemma wp_load_buffer b x (Q : buffer → World → Prop) :
    buffers w !! b = Some x → Q x w → wp (load_buffer b) w Q E.
  Proof. intros H HQ. unfold load_buffer. apply wp_bind, wp_gets. by rewrite H. Qed.

Lemma wp_store_buffer b x x' (Q : unit → World → Prop) :
    buffers w !! b = Some x →
    Q tt (set_buffers (<[b := x']> (buffers w)) w) →
    wp (store_buffer b x') w Q E.
  Proof.
    intros H HQ. unfold store_buffer. apply wp_bind.
    by eapply wp_load_buffer.
  Qed.

Lemma wp_set_isConst b x v (Q : unit → World → Prop) :
    buffers w !! b = Some x →
    Q tt (set_buffers (<[b := Buffer (data x) v]> (buffers w)) w) →
    wp (set_isConst b v) w Q E.
  Proof.
    intros H HQ. unfold set_isConst. apply wp_bind.
    eapply wp_load_buffer; [done|]. by eapply wp_store_buffer.
  Qed.

  (** The helpers. *)

Lemma wp_luv_handle_get_lua h x (Q : unit → World → Prop) :
    streams w !! h = Some x →
    Q tt (set_stack (stack w ++ [VUserdata h]) w) →
    wp (luv_handle_get_lua h) w Q E.
  Proof.
    intros H HQ. unfold luv_handle_get_lua. apply wp_bind.
    eapply wp_load_stream; [done|]. by apply wp_lua_push.
  Qed.

Lemma wp_luv_handle_ref h x i (Q : unit → World → Prop) :
    streams w !! h = Some x →
    Q tt (set_streams (<[h := set_refCount (refCount x + 1) x]> (streams w)) w) →
    wp (luv_handle_ref h i) w Q E.
  Proof.
    intros H HQ. unfold luv_handle_ref. apply wp_bind.
    eapply wp_load_stream; [done|]. by eapply wp_store_stream.
  Qed.

Lemma wp_luv_handle_unref h x (Q : unit → World → Prop) :
    streams w !! h = Some x → 1 ≤ refCount x →
    Q tt (set_streams (<[h := set_refCount (refCount x - 1) x]> (streams w)) w) →
    wp (luv_handle_unref h) w Q E.
  Proof.
    intros H Hr HQ. unfold luv_handle_unref. apply wp_bind.
    eapply wp_load_stream; [done|].
    destruct (_ <? 0) eqn:Hlt; [zlia|]. by eapply wp_store_stream.
  Qed.

Lemma wp_luv_checkudata idx ty h (Q : Addr → World → Prop) :
    0 < idx → stack w !! Z.to_nat (idx - 1) = Some (VUserdata h) →
    Q h w → wp (luv_checkudata idx ty) w Q E.
  Proof.
    intros Hi H HQ. unfold luv_checkudata. apply wp_bind, wp_gets.
    rewrite index2value_pos, H by done. by apply wp_ret.
  Qed.

Lemma wp_buffer_get idx b (Q : Addr → World → Prop) :
    0 < idx → stack w !! Z.to_nat (idx - 1) = Some (VBuffer b) →
    Q b w → wp (buffer_get idx) w Q E.
  Proof.
    intros Hi H HQ. unfold buffer_get. apply wp_bind, wp_gets.
    rewrite index2value_pos, H by done. by apply wp_ret.
  Qed.

Lemma wp_luv_push_async_error err source (Q : unit → World → Prop) :
    Q tt (set_stack (stack w ++ [VError source (code err)]) w) →
    wp (luv_push_async_error err source) w Q E.
  Proof. done. Qed.

Lemma wp_uv_last_error (Q : uv_err_t → World → Prop) :
    Q (last_error w) w → wp uv_last_error w Q E.
  Proof. done. Qed.

Lemma wp_luv_acall s fn args nargs nresults source (Q : unit → World → Prop) :
    stack w = s ++ fn :: args → Z.of_nat (length args) = nargs →
    Q tt (set_trace (trace w ++ [Call fn args source (buffers w)])
            (set_stack s w)) →
    wp (luv_acall nargs nresults source) w Q E.
  Proof.
    intros Hs Hn HQ. unfold luv_acall. apply wp_bind, wp_gets.
    rewrite Hs, length_app, length_cons.
    destruct (_ || _) eqn:Hc; [zlia|].
    replace (Z.to_nat _) with (length s) by lia.
    apply wp_modify.
    rewrite list_lookup_middle by done.
    rewrite take_app_length.
    rewrite (cons_middle fn s args), app_assoc.
    rewrite drop_app_length' by (rewrite length_app; simpl; lia).
    done.
  Qed.
End primitives.

Lemma wp_for_each_push args : ∀ w (Q : unit → World → Prop) E,
  Q tt (set_stack (stack w ++ args) w) → wp (for_each args lua_push) w Q E.
Proof.
  induction args as [|a args IH]; intros w Q E HQ.
  - apply wp_ret. destruct w. simpl in *. by rewrite app_nil_r in HQ.
  - simpl. apply wp_bind, wp_lua_push, IH.
    simpl. rewrite <- app_assoc. done.
Qed.

Lemma wp_dispatch_loop args name nargs fns : ∀ w (Q : unit → World → Prop) E,
  Z.of_nat (length args) = nargs →
  Q tt (set_trace (trace w ++ calls fns args name (buffers w)) w) →
  wp (for_each fns (λ fn,
        lua_push fn ;; for_each args lua_push ;; luv_acall nargs 0 name))
     w Q E.
Proof.
  induction fns as [|fn fns IH]; intros w Q E Hn HQ.
  - apply wp_ret. destruct w. simpl in *. by rewrite app_nil_r in HQ.
  - simpl. apply wp_bind, wp_bind, wp_lua_push, wp_bind, wp_for_each_push.
    eapply wp_luv_acall with (s := stack w) (fn := fn) (args := args);
      [simpl; by rewrite <- app_assoc|done|].
    apply IH; [done|]. destruct w. simpl in *.
    by rewrite <- app_assoc.
Qed.

Lemma wp_luv_emit_event w E s h args x name nargs (Q : unit → World → Prop) :
  stack w = s ++ VUserdata h :: args → Z.of_nat (length args) = nargs →
  streams w !! h = Some x →
  Q tt (set_trace
          (trace w ++ dispatch h name args (default [] (listeners x !! name))
                        (buffers w))
          (set_stack s w)) →
  wp (luv_emit_event name nargs) w Q E.
Proof.
  intros Hs Hn Hx HQ. unfold luv_emit_event. apply wp_bind, wp_gets.
  rewrite Hs, length_app, length_cons.
  destruct (_ || _) eqn:Hc; [zlia|].
  replace (Z.to_nat _) with (length s) by lia.
  rewrite list_lookup_middle by done.
  rewrite take_app_length.
  rewrite (cons_middle (VUserdata h) s args), app_assoc.
  rewrite drop_app_length' by (rewrite length_app; simpl; lia).
  apply wp_bind. eapply wp_load_stream; [done|].
  apply wp_bind, wp_modify.
  apply wp_dispatch_loop; [done|].
  destruct w. simpl in *. unfold dispatch in HQ.
  by rewrite <- app_assoc.
Qed.

Lemma wp_luv_register_event w E ui ci h x name (Q : unit → World → Prop) :
  0 < ui → stack w !! Z.to_nat (ui - 1) = Some (VUserdata h) →
  streams w !! h = Some x →
  Q tt (set_streams
          (<[h := set_listeners
                    (<[name := default [] (listeners x !! name)
                               ++ [default VNil (index2value (stack w) ci)]]>
                       (listeners x)) x]> (streams w)) w) →
  wp (luv_register_event ui name ci) w Q E.
Proof.
  intros Hi Hu Hx HQ. unfold luv_register_event. apply wp_bind, wp_gets.
  rewrite index2value_pos, Hu by done.
  apply wp_bind. eapply wp_load_stream; [done|].
  by eapply wp_store_stream.
Qed.

Lemma wp_luv_io_ctx_init w E cbs c (Q : unit → World → Prop) :
  heap w !! cbs = Some (BCtx c) →
  Q tt (set_heap (<[cbs := BCtx (IoCtx LUA_NOREF LUA_NOREF)]> (heap w)) w) →
  wp (luv_io_ctx_init cbs) w Q E.
Proof. intros. by eapply wp_store_ctx. Qed.

Lemma wp_luv_io_ctx_callback_rawgeti w E cbs c (Q : unit → World → Prop) :
  heap w !! cbs = Some (BCtx c) →
  Q tt (set_stack (stack w ++ [default VNil (registry w !! rcb c)]) w) →
  wp (luv_io_ctx_callback_rawgeti cbs) w Q E.
Proof.
  intros H HQ. unfold luv_io_ctx_callback_rawgeti. apply wp_bind.
  eapply wp_load_ctx; [done|]. by apply wp_lua_rawgeti_registry.
Qed.

Lemma wp_luv_io_ctx_unref w E cbs c (Q : unit → World → Prop) :
  heap w !! cbs = Some (BCtx c) →
  Q tt (set_registry (unref (rcb c) (unref (rdata c) (registry w))) w) →
  wp (luv_io_ctx_unref cbs) w Q E.
Proof.
  intros H HQ. unfold luv_io_ctx_unref. apply wp_bind.
  eapply wp_load_ctx; [done|].
  apply wp_bind, wp_luaL_unref_registry, wp_luaL_unref_registry.
  unfold unref in HQ. destruct w. simpl in *.
  by destruct (0 <=? rdata c), (0 <=? rcb c).
Qed.

Ltac wsimpl :=
  cbn [set_stack set_registry set_streams set_buffers set_heap set_frees
       set_trace stack registry streams buffers heap frees last_error
       native environ trace].

Ltac stack_eq := wsimpl; rewrite <- ?app_assoc; reflexivity.

Ltac after_request_run w req status r c Hreq Hctx Hx :=
      assert (req_data r ≠ req) by (intros Heq; rewrite Heq in Hctx; congruence);
      apply wp_run;
      unfold req_data_of, req_handle_data, handle_data;
      apply wp_bind, wp_bind; eapply wp_load_req; [exact Hreq|];
      apply wp_ret, wp_bind, wp_bind; eapply wp_load_req; [exact Hreq|];
      apply wp_ret, wp_bind; eapply wp_luv_handle_get_lua; [exact Hx|];
      apply wp_bind; eapply wp_lua_pop with (l := [VUserdata (req_handle r)]);
        [reflexivity|reflexivity|];
      apply wp_bind; eapply wp_luv_io_ctx_callback_rawgeti; [exact Hctx|];
      apply wp_bind; eapply wp_luv_io_ctx_unref; [exact Hctx|];
      apply wp_bind; eapply wp_lua_isfunction_top; [reflexivity|];
      wsimpl; unfold completed, callback_call;
      apply wp_bind;
      destruct (is_function (default VNil (registry w !! rcb c)));
      [ destruct (status =? -1);
        [ apply wp_bind, wp_uv_last_error, wp_bind, wp_luv_push_async_error;
          eapply wp_luv_acall with (s := stack w); [stack_eq|reflexivity|]
        | eapply wp_luv_acall with (s := stack w) (args := []);
          [reflexivity|reflexivity|] ]
      | eapply wp_lua_pop with (s := stack w); [reflexivity|reflexivity|] ];
      (apply wp_bind, wp_bind; eapply wp_load_req; [exact Hreq|];
       apply wp_ret, wp_bind; eapply wp_luv_handle_unref; [exact Hx|assumption|];
       apply wp_bind, wp_bind; eapply wp_load_req; [exact Hreq|];
       apply wp_ret, wp_bind; eapply wp_free; [assumption|exact Hctx|done|];
       eapply wp_free; [assumption|wsimpl; rewrite lookup_insert_ne by done; exact Hreq|done|];
       wsimpl; rewrite ?app_nil_r, <- ?app_assoc; reflexivity).

Section completion.
Context (w : World) (req : Addr) (status : Z).
Context (r : uv_req_t) (c : luv_io_ctx_t) (x : stream).
Hypothesis Hreq : heap w !! req = Some (BReq r).
Hypothesis Hctx : heap w !! req_data r = Some (BCtx c).
Hypothesis Hx : streams w !! req_handle r = Some x.
Hypothesis Hreq0 : req ≠ NULL.
Hypothesis Hctx0 : req_data r ≠ NULL.
Hypothesis Hcount : 1 ≤ refCount x.

Lemma luv_after_write_run :
    luv_after_write req status w
    = Ok tt (completed "after_write" req status r c x w).
  Proof using All. unfold luv_after_write.
    after_request_run w req status r c Hreq Hctx Hx. Qed.

Lemma luv_after_shutdown_run :
    luv_after_shutdown req status w
    = Ok tt (completed "after_shutdown" req status r c x w).
  Proof using All. unfold luv_after_shutdown.
    after_request_run w req status r c Hreq Hctx Hx. Qed.
End completion.

Lemma wp_luv_io_ctx_add w E cbs idx c (Q : unit → World → Prop) :
  heap w !! cbs = Some (BCtx c) →
  (default VNil (index2value (stack w) idx) = VNil →
   Q tt (set_heap (<[cbs := BCtx (IoCtx (rcb c) LUA_REFNIL)]> (heap w)) w)) →
  (default VNil (index2value (stack w) idx) ≠ VNil →
   Q tt (set_heap
           (<[cbs := BCtx (IoCtx (rcb c) (next_key (registry w)))]> (heap w))
           (set_registry
              (<[next_key (registry w)
                 := default VNil (index2value (stack w) idx)]> (registry w))
              w))) →
  wp (luv_io_ctx_add cbs idx) w Q E.
Proof.
  intros Hc Hnil Hv. unfold luv_io_ctx_add.
  apply wp_bind, wp_lua_pushvalue, wp_bind.
  eapply wp_luaL_ref_registry; [reflexivity|..]; intros Hd.
  - eapply wp_bind, wp_load_ctx; [exact Hc|].
    eapply wp_store_ctx; [exact Hc|].
    specialize (Hnil Hd). destruct w. exact Hnil.
  - eapply wp_bind, wp_load_ctx; [exact Hc|].
    eapply wp_store_ctx; [exact Hc|].
    specialize (Hv Hd). destruct w. exact Hv.
Qed.

Lemma wp_luv_io_ctx_callback_add w E cbs idx c (Q : unit → World → Prop) :
  heap w !! cbs = Some (BCtx c) →
  (default VNil (index2value (stack w) idx) = VNil →
   Q tt (set_heap (<[cbs := BCtx (IoCtx LUA_REFNIL (rdata c))]> (heap w)) w)) →
  (default VNil (index2value (stack w) idx) ≠ VNil →
   Q tt (set_heap
           (<[cbs := BCtx (IoCtx (next_key (registry w)) (rdata c))]> (heap w))
           (set_registry
              (<[next_key (registry w)
                 := default VNil (index2value (stack w) idx)]> (registry w))
              w))) →
  wp (luv_io_ctx_callback_add cbs idx) w Q E.
Proof.
  intros Hc Hnil Hv. unfold luv_io_ctx_callback_add.
  apply wp_bind, wp_lua_pushvalue, wp_bind.
  eapply wp_luaL_ref_registry; [reflexivity|..]; intros Hd.
  - eapply wp_bind, wp_load_ctx; [exact Hc|].
    eapply wp_store_ctx; [exact Hc|].
    specialize (Hnil Hd). destruct w. exact Hnil.
  - eapply wp_bind, wp_load_ctx; [exact Hc|].
    eapply wp_store_ctx; [exact Hc|].
    specialize (Hv Hd). destruct w. exact Hv.
Qed.

Lemma wp_set_req_data w E req cbs r (Q : unit → World → Prop) :
  heap w !! req = Some (BReq r) →
  Q tt (set_heap
          (<[req := BReq (UvReq (req_type r) (req_handle r) cbs (req_bufs r))]>
             (heap w)) w) →
  wp (set_req_data req cbs) w Q E.
Proof.
  intros H HQ. unfold set_req_data.
  eapply wp_bind, wp_load_req; [done|]. by eapply wp_store_req.
Qed.

Lemma wp_uv_write w E req handle bufs r (Q : unit → World → Prop) :
  heap w !! req = Some (BReq r) →
  Q tt (set_heap (<[req := BReq (UvReq UV_WRITE handle (req_data r) bufs)]>
                    (heap w)) w) →
  wp (uv_write req handle bufs) w Q E.
Proof.
  intros H HQ. unfold uv_write.
  eapply wp_bind, wp_load_req; [done|]. by eapply wp_store_req.
Qed.

Lemma wp_uv_shutdown w E req handle r (Q : unit → World → Prop) :
  heap w !! req = Some (BReq r) →
  Q tt (set_heap (<[req := BReq (UvReq UV_SHUTDOWN handle (req_data r) [])]>
                    (heap w)) w) →
  wp (uv_shutdown req handle) w Q E.
Proof.
  intros H HQ. unfold uv_shutdown.
  eapply wp_bind, wp_load_req; [done|]. by eapply wp_store_req.
Qed.

Lemma write_ctx_ne_req w : write_ctx w ≠ write_req w.
Proof. apply next_key_ne. rewrite lookup_insert_eq. eauto. Qed.

Ltac map_eq_solve :=
  apply map_eq; intros ?;
  rewrite ?lookup_insert; repeat case_decide; subst; congruence.

Lemma luv_write_run w h chunk f rest x bx :
  stack w = VUserdata h :: VBuffer chunk :: VFunction f :: rest →
  streams w !! h = Some x →
  buffers w !! chunk = Some bx →
  luv_write w = Ok 0 (written h chunk (VFunction f) x bx w).
Proof.
  intros Hs Hx Hb. pose proof (write_ctx_ne_req w) as Hne.
  unfold written. revert Hne.
  unfold write_rcb, write_ctx, write_rdata, write_req.
  destruct w as [stk reg strs bufs hp frs le nat env tr].
  simpl in Hs, Hx, Hb. subst stk. wsimpl.
  set (req := next_key hp). set (ctx := next_key (<[req := new_req]> hp)).
  set (rd := next_key reg). set (rc := next_key (<[rd := VBuffer chunk]> reg)).
  intros Hne.
  apply wp_run. unfold luv_write, handle_data.
  eapply wp_bind, wp_luv_checkudata; [lia|done|].
  eapply wp_bind, wp_buffer_get; [lia|done|].
  apply wp_bind, wp_malloc, wp_bind, wp_malloc. wsimpl.
  fold req. fold ctx.
  eapply wp_bind, wp_luv_io_ctx_init; [wsimpl; apply lookup_insert_eq|].
  wsimpl.
  eapply wp_bind, wp_luv_io_ctx_add; [wsimpl; apply lookup_insert_eq|..];
    wsimpl; rewrite index2value_pos by lia; simpl; [done|intros _].
  fold rd.
  eapply wp_bind, wp_luv_io_ctx_callback_add; [wsimpl; apply lookup_insert_eq|..];
    wsimpl; rewrite index2value_pos by lia; simpl; [done|intros _].
  fold rc.
  eapply wp_bind, wp_set_req_data;
    [wsimpl; rewrite !lookup_insert_ne by done; apply lookup_insert_eq|].
  eapply wp_bind, wp_luv_handle_ref; [exact Hx|].
  eapply wp_bind, wp_load_buffer; [exact Hb|].
  eapply wp_bind, wp_uv_write; [wsimpl; apply lookup_insert_eq|].
  apply wp_ret. wsimpl.
  clearbody req ctx rd rc. unfold uv_buf_init.
  cbn [req_data req_type req_handle req_bufs rcb rdata].
  do 2 f_equal. map_eq_solve.
Qed.

Lemma times_freed_app w w' l a :
  frees w' = frees w ++ l →
  times_freed w' a = (times_freed w a + count_occ Z.eq_dec l a)%nat.
Proof. unfold times_freed. intros ->. apply count_occ_app. Qed.

Lemma count_occ_pair (a b : Z) :
  a ≠ b → count_occ Z.eq_dec [a; b] b = 1%nat.
Proof.
  intros Hne. simpl.
  destruct (Z.eq_dec a b); [done|]. by destruct (Z.eq_dec b b).
Qed.

Lemma write_req_fresh w : heap w !! write_req w = None.
Proof. apply next_key_fresh. Qed.

Lemma write_ctx_fresh w : heap w !! write_ctx w = None.
Proof.
  pose proof (next_key_fresh (<[write_req w := new_req]> (heap w))) as H.
  rewrite lookup_insert_ne in H; [done|].
  intros Heq. symmetry in Heq. by apply write_ctx_ne_req in Heq.
Qed.

Lemma write_rcb_ne_rdata w chunk : write_rcb w chunk ≠ write_rdata w.
Proof. apply next_key_ne. rewrite lookup_insert_eq. eauto. Qed.


Lemma wp_when w E (b : bool) (m : M unit) (Q : unit → World → Prop) :
  (b = true → wp m w Q E) → (b = false → Q tt w) → wp (when b m) w Q E.
Proof. intros H1 H2. destruct b; [by apply H1|by apply wp_ret, H2]. Qed.

Lemma wp_lua_pushinteger w E n (Q : unit → World → Prop) :
  Q tt (set_stack (stack w ++ [VInteger n]) w) → wp (lua_pushinteger n) w Q E.
Proof. done. Qed.

Lemma wp_lhandle_buffer w E h x (Q : Addr → World → Prop) :
  streams w !! h = Some x → Q (buffer_ x) w → wp (lhandle_buffer h) w Q E.
Proof.
  intros H HQ. unfold lhandle_buffer.
  eapply wp_bind, wp_load_stream; [done|]. by apply wp_ret.
Qed.

Lemma wp_buffer_new w E (Q : Addr → World → Prop) :
  Q (next_key (buffers w))
    (set_stack (stack w ++ [VBuffer (next_key (buffers w))])
       (set_buffers (<[next_key (buffers w) := Buffer [] 0]> (buffers w)) w)) →
  wp buffer_new w Q E.
Proof. done. Qed.

Lemma wp_buffer_slice w E b x offset length (Q : unit → World → Prop) :
  buffers w !! b = Some x →
  Q tt (set_stack (stack w ++ [VBuffer (next_key (buffers w))])
          (set_buffers
             (<[next_key (buffers w)
                := Buffer (take (Z.to_nat length)
                             (drop (Z.to_nat offset) (data x))) 0]>
                (buffers w)) w)) →
  wp (buffer_slice b offset length) w Q E.
Proof.
  intros H HQ. unfold buffer_slice.
  eapply wp_bind, wp_load_buffer; [done|].
  apply wp_bind, wp_buffer_new.
  eapply wp_store_buffer; [wsimpl; apply lookup_insert_eq|].
  wsimpl. by rewrite insert_insert_eq.
Qed.

Section on_read.
Context (w : World) (h : Addr) (nread : Z) (buf : uv_buf_t).
Context (hs : stream) (bx : buffer) (blk : block).
Hypothesis Hh : streams w !! h = Some hs.
Hypothesis Hb : buffers w !! buffer_ hs = Some bx.

Lemma luv_on_read_raise :
    0 ≤ nread → isConst bx = 1 →
    luv_on_read h nread buf w
    = Raise readonly_msg (set_stack (stack w ++ [VUserdata h]) w).
  Proof using Hh Hb.
    intros Hn Hc. apply wp_run. unfold luv_on_read, handle_data.
    eapply wp_bind, wp_luv_handle_get_lua; [done|].
    destruct (0 <=? nread) eqn:Hge; [|zlia].
    apply wp_bind, wp_bind. eapply wp_lhandle_buffer; [done|].
    eapply wp_bind, wp_load_buffer; [done|].
    rewrite Hc. simpl. by apply wp_bind, wp_raise.
  Qed.

Hypothesis Hbase : base buf ≠ NULL.
Hypothesis Hblk : heap w !! base buf = Some blk.
Hypothesis Hlive : blk ≠ BFreed.

Lemma luv_on_read_data :
    0 ≤ nread → isConst bx ≠ 1 →
    luv_on_read h nread buf w = Ok tt (read_data h nread buf hs bx w).
  Proof using All.
    intros Hn Hc. apply wp_run. unfold luv_on_read, handle_data.
    eapply wp_bind, wp_luv_handle_get_lua; [done|].
    destruct (0 <=? nread) eqn:Hge; [|zlia].
    apply wp_bind, wp_bind. eapply wp_lhandle_buffer; [done|].
    eapply wp_bind, wp_load_buffer; [done|].
    apply wp_bind, wp_when; [intros; zlia|intros _].
    eapply wp_bind, wp_load_stream; [done|].
    apply wp_bind, wp_lua_rawgeti_registry.
    eapply wp_bind, wp_lhandle_buffer; [done|].
    eapply wp_bind, wp_load_buffer; [done|].
    unfold read_data, data_arg, sliced.
    pose proof (next_key_fresh (buffers w)) as Hfresh.
    assert (buffer_ hs ≠ next_key (buffers w)) as Hne by congruence.
    apply wp_bind, wp_when; destruct (nread =? length_ bx); try done; intros _;
      [eapply wp_bind, wp_buffer_slice; [exact Hb|];
       eapply wp_lua_remove2 with (s := stack w ++ [VUserdata h]);
         [stack_eq|]|];
      (apply wp_bind, wp_lua_pushinteger;
       eapply wp_bind, wp_lhandle_buffer; [exact Hh|];
       eapply wp_bind, wp_set_isConst;
         [wsimpl; rewrite ?lookup_insert_ne by done; exact Hb|];
       eapply wp_bind, wp_luv_emit_event with (s := stack w);
         [stack_eq|reflexivity|exact Hh|];
       eapply wp_bind, wp_lhandle_buffer; [exact Hh|];
       eapply wp_set_isConst; [wsimpl; apply lookup_insert_eq|];
       eapply wp_free; [exact Hbase|exact Hblk|exact Hlive|];
       wsimpl; change (Z.to_nat 0) with 0%nat; rewrite ?drop_0; do 2 f_equal).
    - by rewrite insert_insert_eq.
    - by rewrite insert_insert_eq.
  Qed.

Lemma luv_on_read_end :
    nread < 0 → code (last_error w) = UV_EOF →
    luv_on_read h nread buf w = Ok tt (read_event h "end" [] buf hs w).
  Proof using Hh Hbase Hblk Hlive.
    intros Hn Hc. apply wp_run. unfold luv_on_read, handle_data.
    eapply wp_bind, wp_luv_handle_get_lua; [done|].
    destruct (0 <=? nread) eqn:Hge; [zlia|].
    apply wp_bind, wp_bind, wp_uv_last_error. wsimpl.
    rewrite Hc. simpl.
    eapply wp_luv_emit_event with (s := stack w) (args := []);
      [stack_eq|reflexivity|exact Hh|].
    eapply wp_free; [exact Hbase|exact Hblk|exact Hlive|].
    reflexivity.
  Qed.

Lemma luv_on_read_error :
    nread < 0 → code (last_error w) ≠ UV_EOF →
    luv_on_read h nread buf w
    = Ok tt (read_event h "error" [VError "on_read" (code (last_error w))]
               buf hs w).
  Proof using Hh Hbase Hblk Hlive.
    intros Hn Hc. apply wp_run. unfold luv_on_read, handle_data.
    eapply wp_bind, wp_luv_handle_get_lua; [done|].
    destruct (0 <=? nread) eqn:Hge; [zlia|].
    apply wp_bind, wp_bind, wp_uv_last_error. wsimpl.
    destruct (_ =? UV_EOF) eqn:He; [zlia|].
    apply wp_bind, wp_uv_last_error, wp_bind, wp_luv_push_async_error.
    eapply wp_luv_emit_event with (s := stack w);
      [stack_eq|reflexivity|exact Hh|].
    eapply wp_free; [exact Hbase|exact Hblk|exact Hlive|].
    reflexivity.
  Qed.
End on_read.

Lemma wp_set_reading w E h x b (Q : unit → World → Prop) :
  streams w !! h = Some x →
  Q tt (set_streams (<[h := set_uv_reading b x]> (streams w)) w) →
  wp (set_reading h b) w Q E.
Proof.
  intros H HQ. unfold set_reading.
  eapply wp_bind, wp_load_stream; [done|]. by eapply wp_store_stream.
Qed.

Lemma luv_read_start_run w h rest x :
  stack w = VUserdata h :: rest → streams w !! h = Some x →
  luv_read_start w = Ok 0 (read_started h x w).
Proof.
  intros Hs Hx. apply wp_run. unfold luv_read_start, uv_read_start, handle_data.
  eapply wp_bind, wp_luv_checkudata; [lia|by rewrite Hs|].
  eapply wp_bind, wp_set_reading; [done|].
  eapply wp_bind, wp_luv_handle_ref; [wsimpl; apply lookup_insert_eq|].
  apply wp_ret. unfold read_started. wsimpl.
  by rewrite insert_insert_eq.
Qed.

Lemma luv_read_stop_run w h rest x :
  stack w = VUserdata h :: rest → streams w !! h = Some x →
  1 ≤ refCount x →
  luv_read_stop w = Ok 0 (read_stopped h x w).
Proof.
  intros Hs Hx Hr. apply wp_run. unfold luv_read_stop, uv_read_stop, handle_data.
  eapply wp_bind, wp_luv_checkudata; [lia|by rewrite Hs|].
  eapply wp_bind, wp_set_reading; [done|].
  eapply wp_bind, wp_luv_handle_unref; [wsimpl; apply lookup_insert_eq|done|].
  apply wp_ret. unfold read_stopped. wsimpl.
  by rewrite insert_insert_eq.
Qed.

Lemma luv_on_connection_run w h status hs :
  streams w !! h = Some hs →
  luv_on_connection h status w = Ok tt (connection_event h status hs w).
Proof.
  intros Hh. apply wp_run. unfold luv_on_connection, handle_data.
  eapply wp_bind, wp_luv_handle_get_lua; [done|].
  unfold connection_event. destruct (status =? -1).
  - apply wp_bind, wp_uv_last_error, wp_bind, wp_luv_push_async_error.
    eapply wp_luv_emit_event with (s := stack w);
      [stack_eq|reflexivity|exact Hh|].
    by destruct w.
  - eapply wp_luv_emit_event with (s := stack w) (args := []);
      [stack_eq|reflexivity|exact Hh|].
    by destruct w.
Qed.

Lemma luv_after_connect_run w req status r hs :
  heap w !! req = Some (BReq r) →
  streams w !! req_handle r = Some hs →
  req ≠ NULL →
  luv_after_connect req status w = Ok tt (connected req status r hs w).
Proof.
  intros Hreq Hh Hn. apply wp_run.
  unfold luv_after_connect, req_handle_data, handle_data.
  apply wp_bind, wp_bind. eapply wp_load_req; [done|]. apply wp_ret.
  eapply wp_bind, wp_luv_handle_get_lua; [done|].
  unfold connected. apply wp_bind. destruct (status =? -1).
  - apply wp_bind, wp_uv_last_error, wp_bind, wp_luv_push_async_error.
    eapply wp_luv_emit_event with (s := stack w);
      [stack_eq|reflexivity|exact Hh|].
    by eapply wp_free.
  - eapply wp_luv_emit_event with (s := stack w) (args := []);
      [stack_eq|reflexivity|exact Hh|].
    by eapply wp_free.
Qed.

Lemma count_occ_pair_fst (a b : Z) :
  a ≠ b → count_occ Z.eq_dec [a; b] a = 1%nat.
Proof.
  intros Hne. simpl.
  destruct (Z.eq_dec a a); [|done]. by destruct (Z.eq_dec b a).
Qed.

Lemma lookup_unref_eq n (r : gmap Z Value) m :
  0 ≤ n → unref n (unref m r) !! n = None.
Proof.
  intros Hn. unfold unref at 1.
  destruct (0 <=? n) eqn:E; [|zlia]. apply lookup_delete_eq.
Qed.

(** A write or shutdown completion follows the discipline. *)
Lemma completed_discipline source req status r c x w :
  heap w !! req = Some (BReq r) →
  heap w !! req_data r = Some (BCtx c) →
  streams w !! req_handle r = Some x →
  completion_discipline source req status w
    (completed source req status r c x w).
Proof.
  intros Hreq Hctx Hx.
  assert (req_data r ≠ req) by (intros Heq; rewrite Heq in Hctx; congruence).
  exists r, c, x. split; [done|]. split; [done|]. split; [done|].
  split; [intros; by apply lookup_unref_eq|].
  split; [done|].
  split; [unfold keep_alive; simpl; by rewrite lookup_insert_eq|].
  split; [simpl; rewrite lookup_insert_ne by done; apply lookup_insert_eq|].
  split; [simpl; apply lookup_insert_eq|].
  split.
  - rewrite (times_freed_app w _ [req_data r; req]) by done.
    rewrite count_occ_pair_fst by done. lia.
  - rewrite (times_freed_app w _ [req_data r; req]) by done.
    rewrite count_occ_pair by done. lia.
Qed.

Lemma wp_luaL_checktype_function w E idx f (Q : unit → World → Prop) :
  0 < idx → stack w !! Z.to_nat (idx - 1) = Some (VFunction f) →
  Q tt w → wp (luaL_checktype_function idx) w Q E.
Proof.
  intros Hi H HQ. unfold luaL_checktype_function. apply wp_bind, wp_gets.
  rewrite index2value_pos, H by done. by apply wp_ret.
Qed.

Lemma wp_luaL_optint w E idx d (Q : Z → World → Prop) :
  0 < idx → optint_arg (stack w !! Z.to_nat (idx - 1)) →
  (∀ n, Q n w) → wp (luaL_optint idx d) w Q E.
Proof.
  intros Hi H HQ. unfold luaL_optint. apply wp_bind, wp_gets.
  rewrite index2value_pos by done.
  destruct (stack w !! _) as [[]|]; simpl in H; try done; by apply wp_ret.
Qed.

Lemma wp_uv_listen_fails w E h backlog (Q : Z → World → Prop) :
  uv_rc (native w) "uv_listen" h ≠ 0 →
  Q (uv_rc (native w) "uv_listen" h) w → wp (uv_listen h backlog) w Q E.
Proof.
  intros Hrc HQ. unfold uv_listen, uv_call_rc. apply wp_bind, wp_gets.
  destruct (_ =? 0) eqn:He; [zlia|]. by apply wp_ret.
Qed.

Lemma luv_listen_fails w h cb rest hs :
  stack w = VUserdata h :: VFunction cb :: rest →
  optint_arg (rest !! 0%nat) →
  streams w !! h = Some hs →
  uv_rc (native w) "uv_listen" h ≠ 0 →
  luv_listen w
  = Raise ("listen: " +:+ uv_strerror (native w) (last_error w))
      (set_streams
         (<[h := set_listeners
                   (<[ "connection"
                       := default [] (listeners hs !! "connection")
                          ++ [VFunction cb] ]> (listeners hs)) hs]>
            (streams w)) w).
Proof.
  intros Hs Hopt Hh Hrc. apply wp_run. unfold luv_listen, handle_data.
  eapply wp_bind, wp_luv_checkudata; [lia|by rewrite Hs|].
  eapply wp_bind, wp_luaL_checktype_function; [lia|by rewrite Hs|].
  eapply wp_bind, wp_luaL_optint; [lia|by rewrite Hs|intros backlog].
  eapply wp_bind, wp_luv_register_event; [lia|by rewrite Hs|done|].
  rewrite Hs, index2value_pos by lia. simpl.
  apply wp_bind, wp_uv_listen_fails; [done|]. wsimpl.
  apply wp_bind, wp_when; [intros _|intros; zlia].
  apply wp_bind, wp_uv_last_error, wp_bind, wp_gets, wp_raise.
  wsimpl. reflexivity.
Qed.

Lemma length_bytes_of_string s :
  length (bytes_of_string s) = String.length s.
Proof. induction s as [|a s IH]; simpl; by rewrite ?IH. Qed.

Lemma luaL_checkstring_run w name rest :
  stack w = VString name :: rest → luaL_checkstring 1 w = Ok name w.
Proof.
  intros Hs. apply wp_run. unfold luaL_checkstring. apply wp_bind, wp_gets.
  rewrite Hs, index2value_pos by lia. by apply wp_ret.
Qed.

Lemma lenv_get_null w name rest :
  stack w = VString name :: rest →
  getenv_in (environ w) name = None →
  lenv_get w = Abort NullDeref.
Proof.
  intros Hs Hg. unfold lenv_get.
  rewrite bind_run, (luaL_checkstring_run w name rest Hs).
  rewrite bind_run. unfold getenv, gets. rewrite Hg.
  reflexivity.
Qed.

Lemma lenv_get_value w name rest v :
  stack w = VString name :: rest →
  getenv_in (environ w) name = Some v →
  lenv_get w
  = Ok 1 (set_stack (stack w ++ [VBuffer (next_key (buffers w))])
            (set_buffers
               (<[next_key (buffers w) := Buffer (bytes_of_string v) 0]>
                  (buffers w)) w)).
Proof.
  intros Hs Hg. apply wp_run. unfold lenv_get.
  apply wp_bind. eapply wp_of_run; [by eapply luaL_checkstring_run|].
  unfold getenv. apply wp_bind, wp_gets. rewrite Hg.
  apply wp_bind, wp_buffer_new, wp_bind, wp_ret, wp_bind.
  eapply wp_store_buffer; [wsimpl; apply lookup_insert_eq|].
  apply wp_ret. wsimpl. rewrite insert_insert_eq, Nat2Z.id.
  by rewrite <- length_bytes_of_string, firstn_all.
Qed.

Lemma getenv_in_absent env name :
  Forall (λ e, String.prefix (name +:+ "=") e = false) env →
  getenv_in env name = None.
Proof.
  induction 1 as [|e env He _ IH]; [done|].
  simpl. by rewrite He.
Qed.

(** On its three branches [luv_on_read] frees [buf.base] once. *)
Lemma on_read_branches_free_base w h nread buf hs bx blk :
  streams w !! h = Some hs →
  buffers w !! buffer_ hs = Some bx →
  base buf ≠ NULL →
  heap w !! base buf = Some blk →
  blk ≠ BFreed →
  (0 ≤ nread → isConst bx = 1 → False) →
  ∃ w' name args,
    luv_on_read h nread buf w = Ok tt w' ∧
    (∃ view, trace w' = trace w ++
       dispatch h name args (default [] (listeners hs !! name)) view) ∧
    (0 ≤ nread → name = "data" ∧ length args = 2%nat) ∧
    (nread < 0 → code (last_error w) = UV_EOF → name = "end" ∧ args = []) ∧
    (nread < 0 → code (last_error w) ≠ UV_EOF →
     name = "error" ∧ args = [VError "on_read" (code (last_error w))]) ∧
    heap w' !! base buf = Some BFreed ∧
    times_freed w' (base buf) = S (times_freed w (base buf)).
Proof.
  intros Hh Hb Hbase Hblk Hlive Hguard.
  assert (∀ w', frees w' = frees w ++ [base buf] →
            times_freed w' (base buf) = S (times_freed w (base buf))) as Hcount.
  { intros w' Hf. rewrite (times_freed_app w w' [base buf]) by done.
    simpl. destruct (Z.eq_dec _ _); [lia|done]. }
  destruct (Z.lt_ge_cases nread 0) as [Hneg|Hpos].
  - destruct (Z.eq_dec (code (last_error w)) UV_EOF) as [Heof|Herr].
    + eexists _, "end", []. split; [by eapply luv_on_read_end|].
      split; [by eexists|]. split; [lia|]. split; [done|]. split; [done|].
      split; [simpl; apply lookup_insert_eq|by apply Hcount].
    + eexists _, "error", _. split; [by eapply luv_on_read_error|].
      split; [by eexists|]. split; [lia|]. split; [done|]. split; [done|].
      split; [simpl; apply lookup_insert_eq|by apply Hcount].
  - eexists _, "data", _. split.
    { eapply luv_on_read_data; try done. intros Hc. by apply Hguard. }
    split; [by eexists|]. split; [done|]. split; [lia|]. split; [lia|].
    split; [simpl; apply lookup_insert_eq|by apply Hcount].
Qed.

(** * The claims *)



(** C8.  [read_start] on a handle followed by the matching [read_stop]:
    the first adds one to the handle's keep-alive count, the second takes
    one away, and the count after the pair is the count before it. *)
Theorem read_start_stop_keep_alive w h rest x :
  stack w = VUserdata h :: rest →
  streams w !! h = Some x →
  0 ≤ refCount x →
  ∃ w1 w2,
    luv_read_start w = Ok 0 w1 ∧
    keep_alive w1 h = Some (refCount x + 1) ∧
    luv_read_stop w1 = Ok 0 w2 ∧
    keep_alive w2 h = Some (refCount x + 1 - 1) ∧
    keep_alive w2 h = keep_alive w h.
Proof.
  intros Hs Hx Hr.
  pose proof (luv_read_start_run w h rest x Hs Hx) as H1.
  set (w1 := read_started h x w) in *.
  set (x1 := set_refCount (refCount x + 1) (set_uv_reading true x)).
  assert (streams w1 !! h = Some x1) as Hx1 by (simpl; apply lookup_insert_eq).
  pose proof (luv_read_stop_run w1 h rest x1 Hs Hx1) as H2.
  exists w1, (read_stopped h x1 w1).
  split; [done|]. split; [unfold keep_alive; by rewrite Hx1|].
  split; [apply H2; simpl; lia|].
  unfold keep_alive. simpl. rewrite lookup_insert_eq, Hx. simpl.
  split; [done|]. f_equal. lia.
Qed.

Lemma read_start_stop_keep_alive_witness :
  ∃ w1 w2,
    luv_read_start write_call = Ok 0 w1 ∧
    keep_alive w1 100 = Some 1 ∧
    luv_read_stop w1 = Ok 0 w2 ∧
    keep_alive w2 100 = Some 0.
Proof.
  destruct (read_start_stop_keep_alive write_call 100
              [VBuffer 10; VFunction 9] example_stream)
    as (w1 & w2 & H1 & Hk1 & H2 & Hk2 & _);
    [reflexivity|reflexivity|simpl; lia|].
  exists w1, w2. repeat split; [exact H1|exact Hk1|exact H2|exact Hk2].
Defined.



(** C3.  In [luv_on_read] with [nread >= 0]: when the read-only flag of
    the handle's buffer is already [1] on entry, an error is raised to the
    caller and nothing is delivered; otherwise the "data" event is
    dispatched, and its listeners are entered, with the flag at [1], and
    the flag is [0] when [luv_on_read] returns. *)
Theorem on_read_readonly_flag w h nread buf hs bx blk :
  streams w !! h = Some hs →
  buffers w !! buffer_ hs = Some bx →
  base buf ≠ NULL →
  heap w !! base buf = Some blk →
  blk ≠ BFreed →
  0 ≤ nread →
  (isConst bx = 1 →
   ∃ w', luv_on_read h nread buf w = Raise readonly_msg w' ∧
         trace w' = trace w) ∧
  (isConst bx ≠ 1 →
   ∃ w' args view,
     luv_on_read h nread buf w = Ok tt w' ∧
     trace w' = trace w ++
       dispatch h "data" args (default [] (listeners hs !! "data")) view ∧
     isConst <$> view !! buffer_ hs = Some 1 ∧
     isConst <$> buffers w' !! buffer_ hs = Some 0).
Proof.
  intros Hh Hb Hbase Hblk Hlive Hn. split; intros Hc.
  - eexists. split; [by eapply luv_on_read_raise|done].
  - eexists _, _, _. split; [by eapply luv_on_read_data|].
    simpl. split; [done|]. by rewrite !lookup_insert_eq.
Qed.

Lemma on_read_readonly_flag_witness :
  ∃ w' args view,
    luv_on_read 100 5 (UvBuf 50 5) example_world = Ok tt w' ∧
    trace w' = [Emit 100 "data" args view;
                Call (VFunction 7) args "data" view] ∧
    isConst <$> view !! 10 = Some 1 ∧
    isConst <$> buffers w' !! 10 = Some 0.
Proof.
  destruct (on_read_readonly_flag example_world 100 5 (UvBuf 50 5)
              example_stream (Buffer [104; 101; 108; 108; 111] 0)
              (BRaw [0; 0; 0; 0; 0]))
    as [_ H]; [reflexivity|reflexivity|done|reflexivity|done|lia|].
  destruct H as (w' & args & view & Hrun & Ht & Hv & Hb); [simpl; lia|].
  exists w', args, view. repeat split; [exact Hrun|exact Ht|exact Hv|exact Hb].
Defined.

(** C5.  A delivery of [nread >= 0] bytes read into the handle's buffer of
    length [L]: with [nread = L] the "data" event is passed the handle's
    own buffer object and no buffer object is created; with [nread < L] it
    is passed a new buffer object of exactly [nread] bytes, the first
    [nread] bytes of the handle's buffer. *)
Theorem on_read_passes_buffer w h nread buf hs bx blk :
  streams w !! h = Some hs →
  buffers w !! buffer_ hs = Some bx →
  registry w !! ref hs = Some (VBuffer (buffer_ hs)) →
  isConst bx ≠ 1 →
  base buf ≠ NULL →
  heap w !! base buf = Some blk →
  blk ≠ BFreed →
  0 ≤ nread →
  (nread = length_ bx →
   ∃ w' view,
     luv_on_read h nread buf w = Ok tt w' ∧
     trace w' = trace w ++
       dispatch h "data" [VBuffer (buffer_ hs); VInteger nread]
         (default [] (listeners hs !! "data")) view ∧
     dom view = dom (buffers w) ∧
     dom (buffers w') = dom (buffers w) ∧
     data <$> view !! buffer_ hs = Some (data bx)) ∧
  (nread < length_ bx →
   ∃ w' view s sx,
     luv_on_read h nread buf w = Ok tt w' ∧
     trace w' = trace w ++
       dispatch h "data" [VBuffer s; VInteger nread]
         (default [] (listeners hs !! "data")) view ∧
     buffers w !! s = None ∧
     view !! s = Some sx ∧
     length_ sx = nread ∧
     data sx = take (Z.to_nat nread) (data bx)).
Proof.
  intros Hh Hb Href Hc Hbase Hblk Hlive Hn.
  pose proof (luv_on_read_data w h nread buf hs bx blk Hh Hb Hbase Hblk Hlive
                Hn Hc) as Hrun.
  split; intros HL.
  - eexists _, _. split; [exact Hrun|].
    unfold read_data, data_arg, sliced. wsimpl.
    assert ((nread =? length_ bx) = true) as -> by (apply Z.eqb_eq; lia).
    rewrite Href. simpl. split; [done|].
    assert (is_Some (buffers w !! buffer_ hs)) as Hin by eauto.
    split; [by apply dom_insert_lookup_L|].
    split; [by apply dom_insert_lookup_L|].
    by rewrite lookup_insert_eq.
  - eexists _, _, (next_key (buffers w)), _. split; [exact Hrun|].
    unfold read_data, data_arg, sliced. wsimpl.
    assert ((nread =? length_ bx) = false) as -> by (apply Z.eqb_neq; lia).
    pose proof (next_key_fresh (buffers w)) as Hfresh.
    split; [done|]. split; [done|].
    split.
    { rewrite lookup_insert_ne by congruence. apply lookup_insert_eq. }
    simpl. split; [|done].
    unfold length_ in *. simpl. rewrite length_take. lia.
Qed.

Lemma on_read_passes_buffer_witness :
  ∃ w' view s sx,
    luv_on_read 100 3 (UvBuf 50 5) example_world = Ok tt w' ∧
    trace w' = [Emit 100 "data" [VBuffer s; VInteger 3] view;
                Call (VFunction 7) [VBuffer s; VInteger 3] "data" view] ∧
    view !! s = Some sx ∧
    data sx = [104; 101; 108].
Proof.
  destruct (on_read_passes_buffer example_world 100 3 (UvBuf 50 5)
              example_stream (Buffer [104; 101; 108; 108; 111] 0)
              (BRaw [0; 0; 0; 0; 0]))
    as [_ H];
    [reflexivity|reflexivity|reflexivity|done|done|reflexivity|done|lia|].
  destruct H as (w' & view & s & sx & Hrun & Ht & _ & Hv & _ & Hd);
    [unfold length_; simpl; lia|].
  exists w', view, s, sx. repeat split; [exact Hrun|exact Ht|exact Hv|exact Hd].
Defined.

(** C6, at the input where the code departs from it.  [luv_on_read] with
    [nread >= 0] on a handle whose buffer is read-only on entry raises the
    guard's error and is left there: [free(buf.base)] is not reached, the
    native allocation stays allocated and no [free] was called on it.  (On
    the branches that dispatch "data", "end" or "error" the allocation is
    freed once: [on_read_branches_free_base].) *)
Theorem on_read_guard_skips_free w h nread buf hs bx blk :
  streams w !! h = Some hs →
  buffers w !! buffer_ hs = Some bx →
  heap w !! base buf = Some blk →
  0 ≤ nread →
  isConst bx = 1 →
  ∃ w',
    luv_on_read h nread buf w = Raise readonly_msg w' ∧
    heap w' !! base buf = Some blk ∧
    times_freed w' (base buf) = times_freed w (base buf) ∧
    trace w' = trace w.
Proof.
  intros Hh Hb Hblk Hn Hc.
  eexists. split; [by eapply luv_on_read_raise|]. by simpl.
Qed.

Lemma on_read_guard_skips_free_witness :
  ∃ w',
    luv_on_read 100 5 (UvBuf 50 5) reentered_world = Raise readonly_msg w' ∧
    heap w' !! 50 = Some (BRaw [0; 0; 0; 0; 0]) ∧
    times_freed w' 50 = 0%nat.
Proof.
  destruct (on_read_guard_skips_free reentered_world 100 5 (UvBuf 50 5)
              example_stream (Buffer [104; 101; 108; 108; 111] 1)
              (BRaw [0; 0; 0; 0; 0]))
    as (w' & Hrun & Hheap & Hf & _);
    [reflexivity|reflexivity|reflexivity|lia|reflexivity|].
  exists w'. repeat split; [exact Hrun|exact Hheap|exact Hf].
Defined.




(** C4, as stated, fails: when [uv_listen] refuses, [luv_listen] raises,
    but the callback it registered for "connection" before the native
    call is still registered on the handle. *)
Lemma listen_failure_keeps_listener :
  uv_rc (native listen_call) "uv_listen" 100 ≠ 0 ∧
  connection_listeners listen_call 100 = [] ∧
  ¬ ∃ msg w', luv_listen listen_call = Raise msg w' ∧
              connection_listeners w' 100 = connection_listeners listen_call 100.
Proof.
  split; [done|]. split; [reflexivity|].
  intros (msg & w' & Hrun & Hl).
  rewrite (luv_listen_fails listen_call 100 9 []
             (Stream 0 1 10 0 ∅ false None)) in Hrun by done.
  injection Hrun as _ <-.
  vm_compute in Hl. discriminate Hl.
Qed.

(** C4, amended.  When [uv_listen] returns nonzero, [luv_listen] raises an
    error to its caller; no "listening" event is emitted and no keep-alive
    reference is taken; the callback, registered as a "connection"
    listener before the native call, stays registered. *)
Theorem listen_failure w h cb rest hs :
  stack w = VUserdata h :: VFunction cb :: rest →
  optint_arg (rest !! 0%nat) →
  streams w !! h = Some hs →
  uv_rc (native w) "uv_listen" h ≠ 0 →
  ∃ w',
    luv_listen w
    = Raise ("listen: " +:+ uv_strerror (native w) (last_error w)) w' ∧
    trace w' = trace w ∧
    keep_alive w' h = keep_alive w h ∧
    connection_listeners w' h = connection_listeners w h ++ [VFunction cb].
Proof.
  intros Hs Hopt Hh Hrc.
  eexists. split; [by eapply luv_listen_fails|].
  split; [done|].
  unfold keep_alive, connection_listeners. simpl.
  rewrite lookup_insert_eq, Hh. simpl.
  split; [done|]. by rewrite lookup_insert_eq.
Qed.

Lemma listen_failure_witness :
  ∃ w',
    luv_listen listen_call = Raise "listen: address already in use" w' ∧
    trace w' = [] ∧
    keep_alive w' 100 = Some 0 ∧
    connection_listeners w' 100 = [VFunction 9].
Proof.
  destruct (listen_failure listen_call 100 9 []
              (Stream 0 1 10 0 ∅ false None))
    as (w' & Hrun & Ht & Hk & Hl); [reflexivity|exact I|reflexivity|done|].
  exists w'. repeat split; [exact Hrun|exact Ht|exact Hk|exact Hl].
Defined.



(** ** What the steps of the module preserve *)

Lemma frame_ret {A} (a : A) : frame (mret a).
Proof. by intros w. Qed.

Lemma frame_bind {A B} (m : M A) (k : A → M B) :
  frame m → (∀ a, frame (k a)) → frame (m ≫= k).
Proof.
  intros Hm Hk w. rewrite bind_run. specialize (Hm w).
  destruct (m w) as [a w1|msg w1|]; [|done..].
  specialize (Hk a w1). destruct (k a w1); congruence.
Qed.

Lemma frame_gets {A} (f : World → A) : frame (gets f).
Proof. by intros w. Qed.

Lemma frame_modify (f : World → World) :
  (∀ w, core (f w) = core w) → frame (modify f).
Proof. intros H w. apply H. Qed.

Lemma frame_raise {A} msg : frame (@luaL_error A msg).
Proof. by intros w. Qed.

Lemma frame_abort {A} f : frame (@abort A f).
Proof. by intros w. Qed.

Lemma frame_when b m : frame m → frame (when b m).
Proof. intros H. destruct b; [done|apply frame_ret]. Qed.

Lemma frame_for_each {A} (l : list A) body :
  (∀ x, frame (body x)) → frame (for_each l body).
Proof.
  intros H. induction l as [|x l IH]; [apply frame_ret|].
  simpl. apply frame_bind; [apply H|by intros _].
Qed.

Create HintDb frame discriminated.

#[local] Hint Resolve frame_ret frame_gets frame_raise frame_abort : frame.
#[local] Hint Extern 2 (frame (_ ≫= _)) =>
  apply frame_bind; [|intros ?] : frame.
#[local] Hint Extern 2 (frame (modify _)) =>
  apply frame_modify; intros []; reflexivity : frame.
#[local] Hint Extern 2 (frame (when _ _)) => apply frame_when : frame.
#[local] Hint Extern 2 (frame (for_each _ _)) =>
  apply frame_for_each; intros ? : frame.
#[local] Hint Extern 6 (frame (match ?x with _ => _ end)) =>
  destruct x : frame.

Ltac frame_by lem := unfold lem; eauto 20 with frame.

Lemma frame_lua_push v : frame (lua_push v).
Proof. frame_by lua_push. Qed.
#[local] Hint Resolve frame_lua_push : frame.

Lemma frame_lua_pushinteger n : frame (lua_pushinteger n).
Proof. frame_by lua_pushinteger. Qed.

Lemma frame_lua_pushnumber n : frame (lua_pushnumber n).
Proof. frame_by lua_pushnumber. Qed.

Lemma frame_lua_pushvalue idx : frame (lua_pushvalue idx).
Proof. frame_by lua_pushvalue. Qed.

Lemma frame_lua_pop n : frame (lua_pop n).
Proof. frame_by lua_pop. Qed.

Lemma frame_lua_remove idx : frame (lua_remove idx).
Proof. frame_by lua_remove. Qed.

Lemma frame_lua_isfunction idx : frame (lua_isfunction idx).
Proof. frame_by lua_isfunction. Qed.

Lemma frame_lua_rawgeti_registry n : frame (lua_rawgeti_registry n).
Proof. frame_by lua_rawgeti_registry. Qed.

Lemma frame_luaL_checktype_function idx : frame (luaL_checktype_function idx).
Proof. frame_by luaL_checktype_function. Qed.

Lemma frame_luaL_optint idx d : frame (luaL_optint idx d).
Proof. frame_by luaL_optint. Qed.

Lemma frame_load_stream h : frame (load_stream h).
Proof. frame_by load_stream. Qed.
#[local] Hint Resolve frame_lua_pushinteger frame_lua_pushnumber
  frame_lua_pushvalue frame_lua_pop frame_lua_remove frame_lua_isfunction
  frame_lua_rawgeti_registry frame_luaL_checktype_function frame_luaL_optint
  frame_load_stream : frame.

Lemma frame_store_stream h x : frame (store_stream h x).
Proof. frame_by store_stream. Qed.
#[local] Hint Resolve frame_store_stream : frame.

Lemma frame_luv_handle_get_lua h : frame (luv_handle_get_lua h).
Proof. frame_by luv_handle_get_lua. Qed.

Lemma frame_luv_handle_ref h i : frame (luv_handle_ref h i).
Proof. frame_by luv_handle_ref. Qed.

Lemma frame_luv_handle_unref h : frame (luv_handle_unref h).
Proof. frame_by luv_handle_unref. Qed.

Lemma frame_luv_checkudata idx ty : frame (luv_checkudata idx ty).
Proof. frame_by luv_checkudata. Qed.

Lemma frame_buffer_get idx : frame (buffer_get idx).
Proof. frame_by buffer_get. Qed.

Lemma frame_luv_push_async_error err source :
  frame (luv_push_async_error err source).
Proof. frame_by luv_push_async_error. Qed.

Lemma frame_uv_last_error : frame uv_last_error.
Proof. frame_by uv_last_error. Qed.

Lemma frame_luv_acall nargs nresults source :
  frame (luv_acall nargs nresults source).
Proof. frame_by luv_acall. Qed.
#[local] Hint Resolve frame_luv_handle_get_lua frame_luv_handle_ref
  frame_luv_handle_unref frame_luv_checkudata frame_buffer_get
  frame_luv_push_async_error frame_uv_last_error frame_luv_acall : frame.

Lemma frame_luv_emit_event name nargs : frame (luv_emit_event name nargs).
Proof. frame_by luv_emit_event. Qed.

Lemma frame_luv_register_event ui name ci :
  frame (luv_register_event ui name ci).
Proof. frame_by luv_register_event. Qed.

Lemma frame_uv_listen h backlog : frame (uv_listen h backlog).
Proof. unfold uv_listen, uv_call_rc. eauto 20 with frame. Qed.

Lemma frame_uv_accept server client : frame (uv_accept server client).
Proof. unfold uv_accept, uv_call_rc. eauto 20 with frame. Qed.

Lemma frame_set_reading h b : frame (set_reading h b).
Proof. frame_by set_reading. Qed.

Lemma frame_lhandle_buffer h : frame (lhandle_buffer h).
Proof. frame_by lhandle_buffer. Qed.

Lemma frame_load_req req : frame (load_req req).
Proof. frame_by load_req. Qed.

Lemma frame_load_ctx cbs : frame (load_ctx cbs).
Proof. frame_by load_ctx. Qed.

Lemma frame_load_buffer b : frame (load_buffer b).
Proof. frame_by load_buffer. Qed.
#[local] Hint Resolve frame_luv_emit_event frame_luv_register_event
  frame_uv_listen frame_uv_accept frame_set_reading frame_lhandle_buffer
  frame_load_req frame_load_ctx frame_load_buffer : frame.

Lemma frame_set_isConst b v : frame (set_isConst b v).
Proof.
  intros w. unfold set_isConst, load_buffer.
  rewrite !bind_run. unfold gets.
  destruct (buffers w !! b) as [x|] eqn:Hb; [|done].
  unfold mret, M_ret, store_buffer, load_buffer.
  rewrite !bind_run. unfold gets. rewrite Hb.
  unfold mret, M_ret, modify, core. simpl. f_equal.
  rewrite fmap_insert. simpl. apply insert_id.
  by rewrite lookup_fmap, Hb.
Qed.

Lemma frame_luv_io_ctx_callback_rawgeti cbs :
  frame (luv_io_ctx_callback_rawgeti cbs).
Proof. frame_by luv_io_ctx_callback_rawgeti. Qed.

Lemma frame_req_handle_data req : frame (req_handle_data req).
Proof. frame_by req_handle_data. Qed.

Lemma frame_req_data_of req : frame (req_data_of req).
Proof. frame_by req_data_of. Qed.
#[local] Hint Resolve frame_set_isConst frame_luv_io_ctx_callback_rawgeti
  frame_req_handle_data frame_req_data_of : frame.

(** The functions that touch neither the registry nor the heap. *)

Lemma frame_luv_on_connection handle status :
  frame (luv_on_connection handle status).
Proof. frame_by luv_on_connection. Qed.

Lemma frame_luv_listen : frame luv_listen.
Proof. frame_by luv_listen. Qed.

Lemma frame_luv_accept : frame luv_accept.
Proof. frame_by luv_accept. Qed.

Lemma frame_luv_read_start : frame luv_read_start.
Proof. unfold luv_read_start, uv_read_start. eauto 20 with frame. Qed.

Lemma frame_luv_read_start2 : frame luv_read_start2.
Proof. frame_by luv_read_start2. Qed.

Lemma frame_luv_read_stop : frame luv_read_stop.
Proof. unfold luv_read_stop, uv_read_stop. eauto 20 with frame. Qed.

Lemma frame_luv_read_stop_noref : frame luv_read_stop_noref.
Proof. unfold luv_read_stop_noref, uv_read_stop. eauto 20 with frame. Qed.

Lemma frame_luv_write_queue_size : frame luv_write_queue_size.
Proof. frame_by luv_write_queue_size. Qed.

Lemma frame_luv_write2 : frame luv_write2.
Proof. frame_by luv_write2. Qed.

Lemma keeps_bind {A B} (J : World → Prop) (m : M A) (k : A → M B) φ ψ :
  keeps J m φ → (∀ a, φ a → keeps J (k a) ψ) → keeps J (m ≫= k) ψ.
Proof.
  intros Hm Hk w HJ. rewrite bind_run. specialize (Hm w HJ).
  destruct (m w) as [a w1|msg w1|]; [|done..].
  destruct Hm as [HJ1 Ha]. exact (Hk a Ha w1 HJ1).
Qed.

Lemma keeps_ret {A} (J : World → Prop) (a : A) (φ : A → Prop) :
  φ a → keeps J (mret a) φ.
Proof. by intros Ha w HJ. Qed.

Lemma keeps_weaken {A} (J : World → Prop) (m : M A) (φ ψ : A → Prop) :
  keeps J m φ → (∀ a, φ a → ψ a) → keeps J m ψ.
Proof.
  intros Hm Himp w HJ. specialize (Hm w HJ).
  destruct (m w); [|done..]. destruct Hm. auto.
Qed.

Lemma keeps_when (J : World → Prop) b m :
  keeps J m (λ _, True) → keeps J (when b m) (λ _, True).
Proof. intros H. destruct b; [done|by apply keeps_ret]. Qed.

Lemma keeps_in_frame (J : World → Prop) args (m : M Z) φ :
  (∀ w s, J w → J (set_stack s w)) →
  keeps J m φ → keeps J (in_frame args m) (λ _, True).
Proof.
  intros Hstack Hm w HJ. unfold in_frame.
  specialize (Hm (set_stack args w) (Hstack _ _ HJ)).
  destruct (m _) as [a w1|msg w1|]; [|by apply Hstack|done].
  destruct Hm. split; [by apply Hstack|done].
Qed.

Section protection.
Context (req : Addr) (r0 : uv_req_t) (c0 : luv_io_ctx_t).
Context (chunk : Addr) (cb : Value) (bytes : list Z).

#[local] Abbreviation J := (protected req r0 c0 chunk cb bytes).
#[local] Abbreviation other_id := (other_id c0).

Lemma protected_core w w' : core w' = core w → J w → J w'.
Proof.
  unfold core. intros Hc [H1 H2 H3 H4 H5 H6 H7 H8 H9 H10 H11].
  injection Hc as Hr Hh Hb.
  split; rewrite ?Hr, ?Hh; try done.
  by rewrite <- lookup_fmap, Hb, lookup_fmap.
Qed.

Lemma protected_set_stack w s : J w → J (set_stack s w).
Proof. by apply protected_core. Qed.

Lemma keeps_frame {A} (m : M A) : frame m → keeps J m (λ _, True).
Proof.
  intros Hm w HJ. specialize (Hm w).
  destruct (m w); [split; [|done]|..|done]; by eapply protected_core.
Qed.

Lemma keeps_load_req a :
  keeps J (load_req a)
    (λ r, a ≠ req_data r0 ∧
          (a ≠ req → req_data r ≠ req_data r0 ∧ req_data r ≠ req)).
Proof.
  intros w HJ. unfold load_req. rewrite bind_run. unfold gets.
  destruct (heap w !! a) as [[r| | |]|] eqn:Ha; try done.
  split; [done|]. split.
  - intros ->. rewrite (prot_ctx _ _ _ _ _ _ _ HJ) in Ha. done.
  - intros Hne. by eapply prot_reqs.
Qed.

Lemma keeps_load_ctx a :
  keeps J (load_ctx a)
    (λ c, a ≠ req ∧
          (a ≠ req_data r0 →
           other_id (rdata c) ∧ other_id (rcb c))).
Proof.
  intros w HJ. unfold load_ctx. rewrite bind_run. unfold gets.
  destruct (heap w !! a) as [[|c| |]|] eqn:Ha; try done.
  split; [done|]. split.
  - intros ->. rewrite (prot_req _ _ _ _ _ _ _ HJ) in Ha. done.
  - intros Hne. unfold other_id.
    destruct (prot_ctxs _ _ _ _ _ _ _ HJ a c Hne Ha) as (?&?&?&?). done.
Qed.

Lemma protected_heap_insert w a b :
  J w → a ≠ req → a ≠ req_data r0 →
  (∀ c, b = BCtx c → other_id (rdata c) ∧ other_id (rcb c)) →
  (∀ r, b = BReq r → req_data r ≠ req_data r0 ∧ req_data r ≠ req) →
  J (set_heap (<[a := b]> (heap w)) w).
Proof.
  intros [H1 H2 H3 H4 H5 H6 H7 H8 H9 H10 H11] Ha Ha' Hc Hr.
  split; simpl; rewrite ?lookup_insert_ne by done; try done.
  - intros a' c Hne. rewrite lookup_insert. case_decide as Hd.
    + intros [= ->]. destruct (Hc c eq_refl) as [[? ?] [? ?]]. done.
    + by apply H10.
  - intros a' r Hne. rewrite lookup_insert. case_decide as Hd.
    + intros [= ->]. by apply Hr.
    + by apply H11.
Qed.

Lemma keeps_store_req a r :
  a ≠ req → req_data r ≠ req_data r0 → req_data r ≠ req →
  keeps J (store_req a r) (λ _, True).
Proof.
  intros Ha Hd Hd'. unfold store_req.
  eapply keeps_bind; [apply keeps_load_req|].
  intros _ [Ha' _] w HJ. split; [|done].
  by apply protected_heap_insert; [..|intros c [=]|intros r' [= <-]].
Qed.

Lemma keeps_store_ctx a c :
  a ≠ req_data r0 → other_id (rdata c) → other_id (rcb c) →
  keeps J (store_ctx a c) (λ _, True).
Proof.
  intros Ha Hd Hc. unfold store_ctx.
  eapply keeps_bind; [apply keeps_load_ctx|].
  intros _ [Ha' _] w HJ. split; [|done].
  by apply protected_heap_insert; [..|intros c' [= <-]|intros r' [=]].
Qed.

Lemma keeps_malloc_req :
  keeps J (malloc new_req) (λ a, a ≠ req ∧ a ≠ req_data r0).
Proof.
  intros w HJ. unfold malloc. rewrite !bind_run. unfold gets, modify. simpl.
  assert (next_key (heap w) ≠ req)
    by (apply next_key_ne; rewrite (prot_req _ _ _ _ _ _ _ HJ); eauto).
  assert (next_key (heap w) ≠ req_data r0)
    by (apply next_key_ne; rewrite (prot_ctx _ _ _ _ _ _ _ HJ); eauto).
  split; [|done].
  apply (protected_heap_insert w _ new_req); try done.
  intros r [= <-]. simpl.
  destruct HJ. split; congruence.
Qed.

Lemma keeps_malloc_ctx :
  keeps J (malloc new_ctx) (λ a, a ≠ req ∧ a ≠ req_data r0).
Proof.
  intros w HJ. unfold malloc. rewrite !bind_run. unfold gets, modify. simpl.
  assert (next_key (heap w) ≠ req)
    by (apply next_key_ne; rewrite (prot_req _ _ _ _ _ _ _ HJ); eauto).
  assert (next_key (heap w) ≠ req_data r0)
    by (apply next_key_ne; rewrite (prot_ctx _ _ _ _ _ _ _ HJ); eauto).
  split; [|done].
  apply (protected_heap_insert w _ new_ctx); try done.
  intros c [= <-]. simpl. unfold other_id.
  destruct HJ. repeat split; lia.
Qed.

Lemma keeps_free a :
  a ≠ req → a ≠ req_data r0 → keeps J (free a) (λ _, True).
Proof.
  intros Ha Ha' w HJ. unfold free.
  destruct (a =? NULL); [by split|].
  rewrite bind_run. unfold gets.
  destruct (heap w !! a) as [b|] eqn:Hb; [|done].
  assert (J (set_frees (frees w ++ [a]) (set_heap (<[a:=BFreed]> (heap w)) w))).
  { apply (protected_core (set_heap (<[a:=BFreed]> (heap w)) w)); [done|].
    by apply protected_heap_insert. }
  by destruct b.
Qed.

Lemma keeps_luaL_ref_registry : keeps J luaL_ref_registry other_id.
Proof.
  intros w HJ. unfold luaL_ref_registry. rewrite bind_run. unfold gets.
  destruct (last (stack w)) as [v|]; [|done].
  rewrite bind_run.
  pose proof (frame_lua_pop 1 w) as Hpop.
  destruct (lua_pop 1 w) as [[] w1|msg w1|] eqn:Hrun;
    [|by eapply protected_core|done].
  pose proof (protected_core w w1 Hpop HJ) as HJ1.
  assert (J w1 ∧ other_id LUA_REFNIL) as Hnil.
  { split; [done|]. destruct HJ. unfold other_id, LUA_REFNIL. lia. }
  destruct v; try exact Hnil;
    (rewrite !bind_run; unfold gets, modify; simpl;
     assert (other_id (next_key (registry w1)))
       by (split; apply next_key_ne;
           [rewrite (prot_rdata _ _ _ _ _ _ _ HJ1)
           |rewrite (prot_rcb _ _ _ _ _ _ _ HJ1)]; eauto);
     split; [|done];
     destruct HJ1; destruct H;
     split; simpl; rewrite ?lookup_insert_ne by done; done).
Qed.

Lemma keeps_luaL_unref_registry n :
  other_id n → keeps J (luaL_unref_registry n) (λ _, True).
Proof.
  intros [Hd Hc] w HJ. unfold luaL_unref_registry.
  destruct (0 <=? n); [|by split].
  split; [|done]. destruct HJ.
  split; simpl; rewrite ?lookup_delete_ne by done; done.
Qed.

Lemma keeps_buffer_slice b offset length :
  keeps J (buffer_slice b offset length) (λ _, True).
Proof.
  intros w HJ. unfold buffer_slice, load_buffer.
  rewrite !bind_run. unfold gets.
  destruct (buffers w !! b) as [x|]; [|done].
  unfold mret, M_ret, buffer_new. rewrite !bind_run. unfold gets, modify.
  simpl. unfold store_buffer, load_buffer. rewrite !bind_run.
  unfold gets. simpl. rewrite lookup_insert_eq.
  unfold mret, M_ret, modify. simpl. split; [|done].
  destruct HJ as [H1 H2 H3 H4 H5 H6 H7 H8 H9 H10 H11].
  split; simpl; try done.
  rewrite insert_insert_eq, lookup_insert_ne; [done|].
  apply next_key_ne. destruct (buffers w !! chunk); [eauto|done].
Qed.

Lemma keeps_assume {A} (m : M A) φ :
  (1 ≤ rdata c0 → 1 ≤ rcb c0 → req ≠ NULL → req_data r0 ≠ NULL →
   keeps J m φ) →
  keeps J m φ.
Proof. intros H w HJ. apply H; by destruct HJ. Qed.

Lemma other_id_neg n : 1 ≤ rdata c0 → 1 ≤ rcb c0 → n < 1 → other_id n.
Proof. intros ? ? ?. split; lia. Qed.

Ltac kframe :=
  eapply keeps_bind; [apply keeps_frame; eauto 20 with frame|intros ? _].

Lemma keeps_luv_io_ctx_init a :
  a ≠ req_data r0 → keeps J (luv_io_ctx_init a) (λ _, True).
Proof.
  intros Ha. apply keeps_assume. intros Hrd Hrc _ _.
  unfold luv_io_ctx_init.
  apply keeps_store_ctx; [done|..]; apply other_id_neg; unfold LUA_NOREF;
    simpl; lia.
Qed.

Lemma keeps_luv_io_ctx_add a idx :
  a ≠ req_data r0 → keeps J (luv_io_ctx_add a idx) (λ _, True).
Proof.
  intros Ha. unfold luv_io_ctx_add. kframe.
  eapply keeps_bind; [apply keeps_luaL_ref_registry|intros id Hid].
  eapply keeps_bind; [apply keeps_load_ctx|intros c [_ Hc]].
  destruct (Hc Ha) as [_ Hcb]. by apply keeps_store_ctx.
Qed.

Lemma keeps_luv_io_ctx_callback_add a idx :
  a ≠ req_data r0 → keeps J (luv_io_ctx_callback_add a idx) (λ _, True).
Proof.
  intros Ha. unfold luv_io_ctx_callback_add. kframe.
  eapply keeps_bind; [apply keeps_luaL_ref_registry|intros id Hid].
  eapply keeps_bind; [apply keeps_load_ctx|intros c [_ Hc]].
  destruct (Hc Ha) as [Hd _]. by apply keeps_store_ctx.
Qed.

Lemma keeps_luv_io_ctx_unref a :
  a ≠ req_data r0 → keeps J (luv_io_ctx_unref a) (λ _, True).
Proof.
  intros Ha. unfold luv_io_ctx_unref.
  eapply keeps_bind; [apply keeps_load_ctx|intros c [_ Hc]].
  destruct (Hc Ha) as [Hd Hcb].
  eapply keeps_bind; [by apply keeps_luaL_unref_registry|intros _ _].
  by apply keeps_luaL_unref_registry.
Qed.

Lemma keeps_set_req_data a cbs :
  a ≠ req → cbs ≠ req_data r0 → cbs ≠ req →
  keeps J (set_req_data a cbs) (λ _, True).
Proof.
  intros Ha Hc Hc'. unfold set_req_data.
  eapply keeps_bind; [apply keeps_load_req|intros r _].
  by apply keeps_store_req.
Qed.

Lemma keeps_uv_write a handle bufs :
  a ≠ req → keeps J (uv_write a handle bufs) (λ _, True).
Proof.
  intros Ha. unfold uv_write.
  eapply keeps_bind; [apply keeps_load_req|intros r [_ Hr]].
  destruct (Hr Ha). by apply keeps_store_req.
Qed.

Lemma keeps_uv_shutdown a handle :
  a ≠ req → keeps J (uv_shutdown a handle) (λ _, True).
Proof.
  intros Ha. unfold uv_shutdown.
  eapply keeps_bind; [apply keeps_load_req|intros r [_ Hr]].
  destruct (Hr Ha). by apply keeps_store_req.
Qed.

Lemma keeps_req_data_of a :
  keeps J (req_data_of a)
    (λ d, a ≠ req_data r0 ∧ (a ≠ req → d ≠ req_data r0 ∧ d ≠ req)).
Proof.
  unfold req_data_of.
  eapply keeps_bind; [apply keeps_load_req|intros r Hr].
  by apply keeps_ret.
Qed.

(** The functions of [luv_stream.c]. *)

Lemma keeps_luv_after_connect a status :
  a ≠ req → keeps J (luv_after_connect a status) (λ _, True).
Proof.
  intros Ha. unfold luv_after_connect, req_handle_data.
  eapply (keeps_bind _ _ _ (λ _, a ≠ req_data r0)).
  { eapply keeps_bind; [apply keeps_load_req|intros r Hr].
    apply keeps_ret. exact (proj1 Hr). }
  intros lhandle Ha'. kframe. kframe.
  by apply keeps_free.
Qed.

Lemma keeps_after_tail a :
  a ≠ req → a ≠ req_data r0 →
  keeps J
    (lhandle ← req_handle_data a;
     luv_handle_unref lhandle ;;
     d ← req_data_of a;
     free d ;;
     free a) (λ _, True).
Proof.
  intros Ha Ha'. kframe. kframe.
  eapply keeps_bind; [apply keeps_req_data_of|intros d [_ Hd]].
  destruct (Hd Ha).
  eapply keeps_bind; [by apply keeps_free|intros _ _].
  by apply keeps_free.
Qed.

Lemma keeps_luv_after_write a status :
  a ≠ req → keeps J (luv_after_write a status) (λ _, True).
Proof.
  intros Ha. unfold luv_after_write.
  eapply keeps_bind; [apply keeps_req_data_of|intros cbs [Ha' Hc]].
  destruct (Hc Ha) as [Hcbs _].
  kframe. kframe. kframe. kframe.
  eapply keeps_bind; [by apply keeps_luv_io_ctx_unref|intros _ _].
  kframe. kframe.
  by apply keeps_after_tail.
Qed.

Lemma keeps_luv_after_shutdown a status :
  a ≠ req → keeps J (luv_after_shutdown a status) (λ _, True).
Proof.
  intros Ha. unfold luv_after_shutdown.
  eapply keeps_bind; [apply keeps_req_data_of|intros cbs [Ha' Hc]].
  destruct (Hc Ha) as [Hcbs _].
  kframe. kframe. kframe. kframe.
  eapply keeps_bind; [by apply keeps_luv_io_ctx_unref|intros _ _].
  kframe. kframe.
  by apply keeps_after_tail.
Qed.

Lemma keeps_luv_shutdown : keeps J luv_shutdown (λ _, True).
Proof.
  unfold luv_shutdown. kframe.
  eapply keeps_bind; [apply keeps_malloc_req|intros rq [Ha Ha']].
  eapply keeps_bind; [apply keeps_malloc_ctx|intros cx [Hc Hc']].
  eapply keeps_bind; [by apply keeps_luv_io_ctx_init|intros _ _].
  eapply keeps_bind; [by apply keeps_luv_io_ctx_callback_add|intros _ _].
  eapply keeps_bind; [by apply keeps_set_req_data|intros _ _].
  kframe.
  eapply keeps_bind; [by apply keeps_uv_shutdown|intros _ _].
  by apply keeps_ret.
Qed.

Lemma keeps_luv_write : keeps J luv_write (λ _, True).
Proof.
  unfold luv_write. kframe. kframe.
  eapply keeps_bind; [apply keeps_malloc_req|intros rq [Ha Ha']].
  eapply keeps_bind; [apply keeps_malloc_ctx|intros cx [Hc Hc']].
  eapply keeps_bind; [by apply keeps_luv_io_ctx_init|intros _ _].
  eapply keeps_bind; [by apply keeps_luv_io_ctx_add|intros _ _].
  eapply keeps_bind; [by apply keeps_luv_io_ctx_callback_add|intros _ _].
  eapply keeps_bind; [by apply keeps_set_req_data|intros _ _].
  kframe. kframe.
  eapply keeps_bind; [by apply keeps_uv_write|intros _ _].
  by apply keeps_ret.
Qed.

Lemma keeps_luv_on_read handle nread buf :
  base buf ≠ req → base buf ≠ req_data r0 →
  keeps J (luv_on_read handle nread buf) (λ _, True).
Proof.
  intros Hb Hb'. unfold luv_on_read. kframe.
  eapply keeps_bind; [|intros _ _; by apply keeps_free].
  destruct (0 <=? nread); [|apply keeps_frame; eauto 20 with frame].
  kframe. kframe. kframe. kframe. kframe. kframe. kframe.
  eapply keeps_bind.
  { apply keeps_when.
    eapply keeps_bind; [apply keeps_buffer_slice|intros _ _].
    apply keeps_frame; eauto with frame. }
  intros _ _. apply keeps_frame; eauto 20 with frame.
Qed.

Lemma keeps_api f : keeps J (api_function f) (λ _, True).
Proof.
  destruct f; simpl;
    first [apply keeps_luv_shutdown | apply keeps_luv_write
          | apply keeps_frame;
            first [apply frame_luv_listen | apply frame_luv_accept
                  | apply frame_luv_read_start | apply frame_luv_read_start2
                  | apply frame_luv_read_stop | apply frame_luv_read_stop_noref
                  | apply frame_luv_write_queue_size | apply frame_luv_write2]].
Qed.

(** Every enabled step keeps what the pending write holds. *)
Lemma keeps_run_op o w :
  J w → enabled req o w →
  match run_op o w with
  | Ok _ w' | Raise _ w' => J w'
  | Abort _ => True
  end.
Proof.
  intros HJ Hen.
  assert (keeps J (run_op o) (λ _, True)) as Hk.
  { destruct o as [f args|h st|h n buf|a st|a st|a st]; simpl in *.
    - eapply keeps_in_frame; [apply protected_set_stack|apply keeps_api].
    - apply keeps_frame, frame_luv_on_connection.
    - destruct Hen as [bytes' Hraw].
      apply keeps_luv_on_read; intros Heq; rewrite Heq in Hraw.
      + by rewrite (prot_req _ _ _ _ _ _ _ HJ) in Hraw.
      + by rewrite (prot_ctx _ _ _ _ _ _ _ HJ) in Hraw.
    - by apply keeps_luv_after_connect.
    - by apply keeps_luv_after_shutdown.
    - by apply keeps_luv_after_write. }
  specialize (Hk w HJ). destruct (run_op o w); [by destruct Hk|done..].
Qed.

Lemma step_protected w w' : step req w w' → J w → J w'.
Proof.
  intros [o Hen Hrun|o msg Hen Hrun] HJ;
    pose proof (keeps_run_op o w HJ Hen) as H; by rewrite Hrun in H.
Qed.

Lemma steps_protected w w' : rtc (step req) w w' → J w → J w'.
Proof. induction 1; eauto using step_protected. Qed.

Lemma protected_pinned w : J w → pinned req chunk cb bytes w.
Proof. intros []. by exists r0, c0. Qed.
End protection.

Lemma registered_ne_fresh w n :
  registered w n → n ≠ write_rdata w ∧ ∀ chunk, n ≠ write_rcb w chunk.
Proof.
  intros [Hneg|Hreg]; (split; [|intros chunk]).
  - pose proof (next_key_pos (registry w)). unfold write_rdata. lia.
  - pose proof (next_key_pos (<[write_rdata w := VBuffer chunk]> (registry w))).
    unfold write_rcb. lia.
  - intros ->. destruct Hreg as [v Hv].
    unfold write_rdata in Hv. by rewrite next_key_fresh in Hv.
  - intros ->. destruct Hreg as [v Hv].
    assert (is_Some (<[write_rdata w := VBuffer chunk]> (registry w)
                       !! write_rcb w chunk)) as [v' Hv'].
    { rewrite lookup_insert. case_decide; eauto. }
    unfold write_rcb in Hv'. by rewrite next_key_fresh in Hv'.
Qed.

Lemma written_protected w h chunk cb x bx :
  buffers w !! chunk = Some bx →
  well_formed w →
  protected (write_req w)
    (UvReq UV_WRITE h (write_ctx w) [UvBuf (BUFFER_DATA chunk) (length_ bx)])
    (IoCtx (write_rcb w chunk) (write_rdata w))
    chunk cb (data bx)
    (written h chunk cb x bx w).
Proof.
  intros Hb [Hctxs Hreqs].
  pose proof (write_ctx_ne_req w) as Hne.
  pose proof (write_rcb_ne_rdata w chunk) as Hne'.
  pose proof (write_req_fresh w) as Hfr.
  pose proof (write_ctx_fresh w) as Hfc.
  split; simpl.
  - apply lookup_insert_eq.
  - rewrite lookup_insert_ne by done. apply lookup_insert_eq.
  - rewrite lookup_insert_ne by done. apply lookup_insert_eq.
  - apply lookup_insert_eq.
  - by rewrite Hb.
  - pose proof (next_key_pos (heap w)). unfold NULL, write_req. lia.
  - pose proof (next_key_pos (<[write_req w := new_req]> (heap w))).
    unfold NULL, write_ctx. lia.
  - pose proof (next_key_pos (registry w)). unfold write_rdata. lia.
  - pose proof (next_key_pos (<[write_rdata w := VBuffer chunk]> (registry w))).
    unfold write_rcb. lia.
  - intros a c Ha. rewrite !lookup_insert.
    case_decide; [done|]. case_decide; [done|]. intros Hc.
    destruct (Hctxs a c Hc) as [Hd Hcb].
    destruct (registered_ne_fresh w _ Hd) as [? ?].
    destruct (registered_ne_fresh w _ Hcb) as [? ?]. done.
  - intros a r Ha. rewrite !lookup_insert.
    case_decide; [done|]. case_decide; [done|]. intros Hr.
    destruct (Hreqs a r Hr) as [Hnull|[b Hin]].
    + rewrite Hnull.
      pose proof (next_key_pos (heap w)).
      pose proof (next_key_pos (<[write_req w := new_req]> (heap w))).
      unfold NULL, write_ctx, write_req in *. split; lia.
    + split; intros Heq; rewrite Heq in Hin; congruence.
Qed.



(** * Further properties of [luv_stream.c] and [lenv.c] *)

Lemma wp_luaL_optint_value w E idx d (Q : Z → World → Prop) :
  0 < idx → optint_arg (stack w !! Z.to_nat (idx - 1)) →
  Q (match stack w !! Z.to_nat (idx - 1) with
     | Some (VInteger n) => n
     | _ => d
     end) w →
  wp (luaL_optint idx d) w Q E.
Proof.
  intros Hi H HQ. unfold luaL_optint. apply wp_bind, wp_gets.
  rewrite index2value_pos by done.
  destruct (stack w !! _) as [[]|]; simpl in H; try done; by apply wp_ret.
Qed.

Lemma wp_uv_listen_ok w E h x backlog (Q : Z → World → Prop) :
  uv_rc (native w) "uv_listen" h = 0 →
  streams w !! h = Some x →
  Q 0 (set_streams (<[h := set_uv_backlog (Some backlog) x]> (streams w)) w) →
  wp (uv_listen h backlog) w Q E.
Proof.
  intros Hrc Hx HQ. unfold uv_listen, uv_call_rc. apply wp_bind, wp_gets.
  rewrite Hrc. simpl.
  eapply wp_bind, wp_load_stream; [done|].
  eapply wp_bind, wp_store_stream; [done|]. by apply wp_ret.
Qed.

Lemma luv_listen_ok w h cb rest hs :
  stack w = VUserdata h :: VFunction cb :: rest →
  optint_arg (rest !! 0%nat) →
  streams w !! h = Some hs →
  uv_rc (native w) "uv_listen" h = 0 →
  luv_listen w = Ok 0 (listening h cb rest hs w).
Proof.
  intros Hs Hopt Hh Hrc. apply wp_run. unfold luv_listen, handle_data.
  eapply wp_bind, wp_luv_checkudata; [lia|by rewrite Hs|].
  eapply wp_bind, wp_luaL_checktype_function; [lia|by rewrite Hs|].
  eapply wp_bind, wp_luaL_optint_value; [lia|by rewrite Hs|].
  eapply wp_bind, wp_luv_register_event; [lia|by rewrite Hs|done|].
  rewrite Hs, index2value_pos by lia.
  change (Z.to_nat (3 - 1)) with 2%nat. change (Z.to_nat (2 - 1)) with 1%nat.
  cbn [lookup list_lookup default from_option id].
  eapply wp_bind, wp_uv_listen_ok; [done|wsimpl; apply lookup_insert_eq|].
  apply wp_bind, wp_when; [intros; zlia|intros _].
  apply wp_bind, wp_lua_pushvalue. wsimpl.
  rewrite Hs, index2value_pos by lia.
  change (Z.to_nat (1 - 1)) with 0%nat.
  cbn [lookup list_lookup default from_option id].
  eapply wp_bind, wp_luv_emit_event with (s := stack w) (args := []);
    [wsimpl; by rewrite Hs|reflexivity|wsimpl; apply lookup_insert_eq|].
  eapply wp_bind, wp_luv_handle_ref; [wsimpl; apply lookup_insert_eq|].
  apply wp_ret. unfold listening. wsimpl.
  rewrite !insert_insert_eq.
  cbn [listeners set_uv_backlog set_listeners].
  rewrite lookup_insert_ne by done.
  reflexivity.
Qed.

Lemma luv_shutdown_run w h f rest x :
  stack w = VUserdata h :: VFunction f :: rest →
  streams w !! h = Some x →
  luv_shutdown w = Ok 0 (shut_down h (VFunction f) x w).
Proof.
  intros Hs Hx. pose proof (write_ctx_ne_req w) as Hne.
  unfold shut_down. revert Hne.
  unfold write_ctx, write_rdata, write_req.
  destruct w as [stk reg strs bufs hp frs le nat env tr].
  simpl in Hs, Hx. subst stk. wsimpl.
  set (req := next_key hp). set (ctx := next_key (<[req := new_req]> hp)).
  set (rc := next_key reg).
  intros Hne.
  apply wp_run. unfold luv_shutdown, handle_data.
  eapply wp_bind, wp_luv_checkudata; [lia|done|].
  apply wp_bind, wp_malloc, wp_bind, wp_malloc. wsimpl.
  fold req. fold ctx.
  eapply wp_bind, wp_luv_io_ctx_init; [wsimpl; apply lookup_insert_eq|].
  wsimpl.
  eapply wp_bind, wp_luv_io_ctx_callback_add; [wsimpl; apply lookup_insert_eq|..];
    wsimpl; rewrite index2value_pos by lia; simpl; [done|intros _].
  fold rc.
  eapply wp_bind, wp_set_req_data;
    [wsimpl; rewrite !lookup_insert_ne by done; apply lookup_insert_eq|].
  eapply wp_bind, wp_luv_handle_ref; [exact Hx|].
  eapply wp_bind, wp_uv_shutdown; [wsimpl; apply lookup_insert_eq|].
  apply wp_ret. wsimpl.
  clearbody req ctx rc.
  cbn [req_data req_type req_handle req_bufs rcb rdata].
  do 2 f_equal. map_eq_solve.
Qed.

Lemma luv_write_run_without_callback w h chunk rest x bx :
  stack w = VUserdata h :: VBuffer chunk :: rest →
  default VNil (rest !! 0%nat) = VNil →
  streams w !! h = Some x →
  buffers w !! chunk = Some bx →
  luv_write w = Ok 0 (written_without_callback h chunk x bx w).
Proof.
  intros Hs Hnil Hx Hb. pose proof (write_ctx_ne_req w) as Hne.
  unfold written_without_callback. revert Hne.
  unfold write_ctx, write_rdata, write_req.
  destruct w as [stk reg strs bufs hp frs le nat env tr].
  simpl in Hs, Hx, Hb. subst stk. wsimpl.
  set (req := next_key hp). set (ctx := next_key (<[req := new_req]> hp)).
  set (rd := next_key reg).
  intros Hne.
  apply wp_run. unfold luv_write, handle_data.
  eapply wp_bind, wp_luv_checkudata; [lia|done|].
  eapply wp_bind, wp_buffer_get; [lia|done|].
  apply wp_bind, wp_malloc, wp_bind, wp_malloc. wsimpl.
  fold req. fold ctx.
  eapply wp_bind, wp_luv_io_ctx_init; [wsimpl; apply lookup_insert_eq|].
  wsimpl.
  eapply wp_bind, wp_luv_io_ctx_add; [wsimpl; apply lookup_insert_eq|..];
    wsimpl; rewrite index2value_pos by lia; simpl; [done|intros _].
  fold rd.
  eapply wp_bind, wp_luv_io_ctx_callback_add; [wsimpl; apply lookup_insert_eq|..];
    wsimpl; rewrite index2value_pos by lia;
    change (Z.to_nat (3 - 1)) with 2%nat;
    change ((VUserdata h :: VBuffer chunk :: rest) !! 2%nat)
      with (rest !! 0%nat);
    [intros _|intros Hv; by destruct (Hv Hnil)].
  eapply wp_bind, wp_set_req_data;
    [wsimpl; rewrite !lookup_insert_ne by done; apply lookup_insert_eq|].
  eapply wp_bind, wp_luv_handle_ref; [exact Hx|].
  eapply wp_bind, wp_load_buffer; [exact Hb|].
  eapply wp_bind, wp_uv_write; [wsimpl; apply lookup_insert_eq|].
  apply wp_ret. wsimpl.
  clearbody req ctx rd. unfold uv_buf_init.
  cbn [req_data req_type req_handle req_bufs rcb rdata].
  do 2 f_equal. map_eq_solve.
Qed.

Lemma unref_insert_fresh (reg : gmap Z Value) n v :
  reg !! n = None → 0 ≤ n → unref n (<[n := v]> reg) = reg.
Proof.
  intros Hn Hpos. unfold unref. destruct (0 <=? n) eqn:E; [|zlia].
  apply map_eq. intros k. rewrite lookup_delete, lookup_insert.
  repeat case_decide; congruence.
Qed.

Lemma unref_insert_other (reg : gmap Z Value) n m v :
  n ≠ m → unref n (<[m := v]> reg) = <[m := v]> (unref n reg).
Proof.
  intros Hne. unfold unref. destruct (0 <=? n); [|done].
  apply map_eq. intros k.
  rewrite ?lookup_delete, ?lookup_insert, ?lookup_delete.
  repeat case_decide; congruence.
Qed.

Lemma write_rdata_fresh w : registry w !! write_rdata w = None.
Proof. apply next_key_fresh. Qed.

Lemma write_rcb_fresh w chunk : registry w !! write_rcb w chunk = None.
Proof.
  pose proof (next_key_fresh (<[write_rdata w := VBuffer chunk]> (registry w)))
    as H.
  rewrite lookup_insert_ne in H; [done|].
  intros Heq. symmetry in Heq. by apply write_rcb_ne_rdata in Heq.
Qed.

Lemma both_freed_written w b1 b2 :
  <[write_req w := BFreed]>
    (<[write_ctx w := BFreed]>
       (<[write_req w := b1]> (<[write_ctx w := b2]> (heap w))))
  = both_freed w.
Proof.
  unfold both_freed. pose proof (write_ctx_ne_req w).
  apply map_eq. intros k. rewrite !lookup_insert.
  repeat case_decide; congruence.
Qed.

Lemma write_req_pos w : write_req w ≠ NULL.
Proof. pose proof (next_key_pos (heap w)). unfold NULL, write_req. lia. Qed.

Lemma write_ctx_pos w : write_ctx w ≠ NULL.
Proof.
  pose proof (next_key_pos (<[write_req w := new_req]> (heap w))).
  unfold NULL, write_ctx. lia.
Qed.

Lemma write_rdata_pos w : 1 ≤ write_rdata w.
Proof. apply next_key_pos. Qed.

Lemma write_rcb_pos w chunk : 1 ≤ write_rcb w chunk.
Proof. apply next_key_pos. Qed.











Lemma luv_read_stop_noref_run w h rest x :
  stack w = VUserdata h :: rest → streams w !! h = Some x →
  luv_read_stop_noref w
  = Ok 0 (set_streams (<[h := set_uv_reading false x]> (streams w)) w).
Proof.
  intros Hs Hx. apply wp_run. unfold luv_read_stop_noref, uv_read_stop.
  eapply wp_bind, wp_luv_checkudata; [lia|by rewrite Hs|].
  eapply wp_bind, wp_set_reading; [done|]. by apply wp_ret.
Qed.

(** X6.  [luv_read_stop_noref] stops the native reads of a handle but,
    unlike [luv_read_stop], releases no keep-alive reference: after
    [read_start] and [read_stop_noref] the handle is not reading and its
    keep-alive count is one above what it was. *)
Theorem read_stop_noref_keeps_reference w h rest x :
  stack w = VUserdata h :: rest →
  streams w !! h = Some x →
  ∃ w1 w2,
    luv_read_start w = Ok 0 w1 ∧
    uv_reading <$> streams w1 !! h = Some true ∧
    luv_read_stop_noref w1 = Ok 0 w2 ∧
    uv_reading <$> streams w2 !! h = Some false ∧
    keep_alive w2 h = Some (refCount x + 1).
Proof.
  intros Hs Hx.
  pose proof (luv_read_start_run w h rest x Hs Hx) as H1.
  set (w1 := read_started h x w) in *.
  set (x1 := set_refCount (refCount x + 1) (set_uv_reading true x)).
  assert (streams w1 !! h = Some x1) as Hx1 by (simpl; apply lookup_insert_eq).
  pose proof (luv_read_stop_noref_run w1 h rest x1 Hs Hx1) as H2.
  eexists w1, _. split; [done|]. split; [by rewrite Hx1|].
  split; [exact H2|].
  unfold keep_alive. simpl. by rewrite !lookup_insert_eq.
Qed.

Lemma read_stop_noref_keeps_reference_witness :
  ∃ w1 w2,
    luv_read_start write_call = Ok 0 w1 ∧
    luv_read_stop_noref w1 = Ok 0 w2 ∧
    keep_alive w2 100 = Some 1.
Proof.
  destruct (read_stop_noref_keeps_reference write_call 100
              [VBuffer 10; VFunction 9] example_stream)
    as (w1 & w2 & H1 & _ & H2 & _ & Hk); [reflexivity|reflexivity|].
  exists w1, w2. repeat split; [exact H1|exact H2|exact Hk].
Defined.

Lemma luv_checkudata_raises w ty :
  not_userdata (stack w !! 0%nat) →
  luv_checkudata 1 ty w
  = Raise ("bad argument (" +:+ ty +:+ " expected)") w.
Proof.
  intros H. unfold luv_checkudata. rewrite bind_run. unfold gets.
  rewrite index2value_pos by lia. change (Z.to_nat (1 - 1)) with 0%nat.
  by destruct (stack w !! 0%nat) as [[]|].
Qed.

Lemma bind_ok {A B} (m : M A) (k : A → M B) w a w' :
  m w = Ok a w' → (m ≫= k) w = k a w'.
Proof. intros H. by rewrite bind_run, H. Qed.

Lemma bind_raise {A B} (m : M A) (k : A → M B) w msg w' :
  m w = Raise msg w' → (m ≫= k) w = Raise msg w'.
Proof. intros H. by rewrite bind_run, H. Qed.







(** Strings of the environment. *)

Lemma string_app_cons x (a b : string) :
  String x a +:+ b = String x (a +:+ b).
Proof. reflexivity. Qed.

Lemma string_app_nil (b : string) : "" +:+ b = b.
Proof. reflexivity. Qed.

Lemma string_app_assoc (a b c : string) : (a +:+ b) +:+ c = a +:+ (b +:+ c).
Proof.
  induction a as [|x a IH]; [done|].
  rewrite !string_app_cons. by f_equal.
Qed.

Lemma string_length_app (a b : string) :
  String.length (a +:+ b) = (String.length a + String.length b)%nat.
Proof.
  induction a as [|x a IH]; [done|].
  rewrite string_app_cons. simpl. by f_equal.
Qed.

Lemma string_prefix_app (a v : string) : String.prefix a (a +:+ v) = true.
Proof.
  induction a as [|x a IH]; [by destruct v|].
  rewrite string_app_cons. simpl.
  destruct (Ascii.ascii_dec x x); [done|congruence].
Qed.

Lemma substring_all (v : string) : String.substring 0 (String.length v) v = v.
Proof. induction v as [|x v IH]; simpl; [done|by f_equal]. Qed.

Lemma substring_app_drop (a v : string) :
  String.substring (String.length a)
    (String.length (a +:+ v) - String.length a) (a +:+ v) = v.
Proof.
  induction a as [|x a IH].
  - rewrite string_app_nil. simpl. rewrite Nat.sub_0_r. apply substring_all.
  - rewrite string_app_cons. simpl. exact IH.
Qed.

Lemma getenv_in_first pre post name v :
  Forall (λ e, String.prefix (name +:+ "=") e = false) pre →
  getenv_in (pre ++ (name +:+ "=" +:+ v) :: post) name = Some v.
Proof.
  rewrite <- (string_app_assoc name "=" v).
  induction 1 as [|e pre He _ IH]; cbn [app getenv_in].
  - rewrite string_prefix_app. f_equal.
    pose proof (substring_app_drop (name +:+ "=") v) as H.
    rewrite (string_length_app name "=") in H.
    change (String.length "=") with 1%nat in H.
    rewrite Nat.add_1_r in H. exact H.
  - by rewrite He.
Qed.



(** The keys of [lenv_keys]. *)

Lemma lenv_keys_loop_lookup env : ∀ i t k,
  lenv_keys_loop env i t !! k
  = if (i <? k) && (k <=? i + Z.of_nat (length env))
    then VString ∘ env_key <$> env !! Z.to_nat (k - i - 1)
    else t !! k.
Proof.
  induction env as [|var env IH]; intros i t k; simpl.
  - destruct (_ && _) eqn:E; [zlia|done].
  - rewrite IH. rewrite lookup_insert.
    destruct ((i + 1 <? k) && _) eqn:E1.
    + destruct ((i <? k) && _) eqn:E2; [|zlia].
      replace (Z.to_nat (k - i - 1)) with (S (Z.to_nat (k - (i + 1) - 1)))
        by zlia.
      done.
    + case_decide as Hk.
      * subst k. destruct ((i <? i + 1) && _) eqn:E2; [|zlia].
        replace (Z.to_nat (i + 1 - i - 1)) with 0%nat by lia. done.
      * destruct ((i <? k) && _) eqn:E2; [zlia|done].
Qed.

Lemma strchr_eq_substring var :
  strchr_eq (env_key var) = None.
Proof.
  unfold env_key. induction var as [|a var IH]; simpl; [done|].
  destruct (Ascii.eqb a eq_char) eqn:E; simpl; [done|].
  destruct (strchr_eq var) as [n|] eqn:En; simpl; rewrite E.
  - by rewrite IH.
  - by rewrite IH.
Qed.

Lemma lenv_keys_index env i var :
  env !! i = Some var →
  lenv_keys_loop env 0 ∅ !! (Z.of_nat i + 1) = Some (VString (env_key var)).
Proof.
  intros Hi. rewrite lenv_keys_loop_lookup.
  pose proof (lookup_lt_Some _ _ _ Hi) as Hlt.
  destruct (_ && _) eqn:E; [|zlia].
  replace (Z.to_nat (Z.of_nat i + 1 - 0 - 1)) with i by lia.
  by rewrite Hi.
Qed.


Lemma string_prefix_cons a s b e :
  String.prefix (String a s) (String b e) = true → a = b ∧ String.prefix s e = true.
Proof. simpl. by destruct (Ascii.ascii_dec a b). Qed.

Lemma env_key_of_entry name : ∀ e,
  strchr_eq name = None →
  String.prefix (name +:+ "=") e = true →
  env_key e = name.
Proof.
  unfold env_key. induction name as [|a name IH]; intros e Hno Hp.
  - rewrite string_app_nil in Hp. destruct e as [|b e]; [done|].
    apply string_prefix_cons in Hp as [<- _]. done.
  - rewrite string_app_cons in Hp. destruct e as [|b e]; [done|].
    apply string_prefix_cons in Hp as [<- Hp].
    simpl in Hno. destruct (Ascii.eqb a eq_char) eqn:E; [done|].
    destruct (strchr_eq name) eqn:En; [done|].
    specialize (IH e eq_refl Hp). simpl. rewrite E.
    destruct (strchr_eq e) as [n|]; simpl; by rewrite IH.
Qed.

Lemma getenv_in_entry env name v :
  getenv_in env name = Some v →
  ∃ i e, env !! i = Some e ∧ String.prefix (name +:+ "=") e = true.
Proof.
  induction env as [|e env IH]; simpl; [done|].
  destruct (String.prefix (name +:+ "=") e) eqn:E.
  - intros _. by exists 0%nat, e.
  - intros H. destruct (IH H) as (i & e' & Hi & He). by exists (S i), e'.
Qed.

(** X12.  [lenv_keys] lists every variable [lenv_get] can read: if
    [getenv] finds a value for a name that holds no ['='], the name is one
    of the keys of the table. *)
Theorem lenv_keys_lists_variables w name v :
  strchr_eq name = None →
  getenv_in (environ w) name = Some v →
  ∃ t k, lenv_keys w = Ok t w ∧ t !! k = Some (VString name).
Proof.
  intros Hno Hg.
  destruct (getenv_in_entry _ _ _ Hg) as (i & e & Hi & He).
  exists (lenv_keys_loop (environ w) 0 ∅), (Z.of_nat i + 1).
  split; [done|].
  rewrite (lenv_keys_index _ i e Hi). by rewrite (env_key_of_entry name e).
Qed.

Lemma lenv_keys_lists_variables_witness :
  ∃ t k, lenv_keys example_world = Ok t example_world ∧
         t !! k = Some (VString "PATH").
Proof.
  exact (lenv_keys_lists_variables example_world "PATH" "/bin"
           eq_refl eq_refl).
Defined.


